(** * workerpool: a bounded pool of workers running batches of Actions

    Verification of [pool.go].  The program is concurrent: [Pool] starts a
    fixed number of [work] goroutines that share one buffered channel [p.in]
    and one shutdown channel [p.done]; any number of goroutines call
    [Execute], each with a private result channel and a derived context.

    The embedding is a small-step interpreter.  A [state] holds the pool's
    channels, the program counter and locals of every goroutine, and the
    store of contexts and result channels.  An [event] names one atomic
    action of one goroutine (or of the environment: cancelling a caller's
    context, closing [done], calling [Execute]); [step] performs it, or
    returns [None] when that action cannot proceed in the state (a send on a
    full channel, a receive on an empty one, a [select] case that is not
    ready).  A Go [select] with several ready cases may take any of them:
    each case is an event of its own, enabled exactly when its communication
    can proceed.  A schedule is a list of events, and [run] replays it.

    What the model fixes about the parts of Go it stands on:
    - a buffered channel is its capacity and a queue of values; a send can
      proceed when there is room and a receive when the queue is not empty
      (a send handed over to a waiting receiver is a send followed by the
      receive);
    - [done] is only ever closed, as the comment of [Pool] asks, so
      [<-done] can proceed exactly when it is closed;
    - a caller's context is a root of the context store, which the
      environment may cancel with [context.Canceled] or
      [context.DeadlineExceeded]; a derived context is done as soon as its
      parent is;
    - a worker enters [a.action.Execute(a.ctx)] when it takes the envelope
      and the call returns in a later step; what it returns is a function of
      the action and of [ctx.Err()] at that moment.  An action that takes
      long, or never returns, is a schedule that delays that step;
    - [queued] is a [uint64] that counts at most [len(actions)] sends, so
      it never wraps and is a [nat] here; [n] is an [int] that is only
      compared and counted up to, a [Z] here. *)

From stdpp Require Import base option list list_numbers strings gmap.
From Stdlib Require Import ZArith Lia.

#[local] Set Warnings "-clear-no-such-hyp".

(** ** Errors *)

(** Go's [error] values that the program produces or passes on:
    [context.Canceled], [context.DeadlineExceeded] and [errors.New msg].
    A nil-able [error] is an [option error]. *)
Inductive error :=
  | Canceled
  | DeadlineExceeded
  | errorString (msg : string).

#[global] Instance error_eq_dec : EqDecision error.
Proof. solve_decision. Defined.

(** [errors.New("pool is closed")], line 44. *)
Definition pool_is_closed : error := errorString "pool is closed".

(** ** Contexts *)

(** A cell of the context store: the context it was derived from, if any,
    and what [ctx.Err()] returns ([None] until the context is done). *)
Record context := Context { parent : option nat; Err : option error }.

(** [context.cancel]: the first cancellation wins, later ones do nothing; a
    cancelled context cancels the contexts derived from it with the same
    error. *)
Definition cancel_cell (c : nat) (e : error) (i : nat) (x : context) : context :=
  if decide (Err x = None ∧ (i = c ∨ parent x = Some c))
  then Context (parent x) (Some e) else x.

Definition cancel (c : nat) (e : error) (cs : list context) : list context :=
  match cs !! c with
  | Some (Context _ None) => imap (cancel_cell c e) cs
  | _ => cs
  end.

(** [ctx.Err()] of the context [c]. *)
Definition ctx_Err (cs : list context) (c : nat) : option error :=
  cs !! c ≫= Err.

(** [context.WithCancel(c)]: a fresh cell, already done when [c] is. *)
Definition WithCancel (c : nat) (cs : list context) : list context :=
  cs ++ [Context (Some c) (ctx_Err cs c)].

(** ** Result channels *)

(** A buffered [chan error]: its capacity and the values it holds, oldest
    first. *)
Record chan := Chan { cap : nat; buf : list (option error) }.

Section workerpool.

(** The [Action] interface is declared outside [pool.go]; the pool only
    calls its method [Execute(ctx) error].  An action is run with a context
    and what it returns may depend on whether that context is done. *)
Context {Action : Type} `{!EqDecision Action}.
Variable action_Execute : Action → option error → option error.

(** [runtime.NumCPU()], positive on every machine; the properties that need
    a worker say so. *)
Variable NumCPU : Z.

(** ** The pool's data *)

(** [type poolAction struct], lines 9-13; [ctx] is the index of the context
    in the context store and [response] names the result channel. *)
Record poolAction := PoolAction { ctx : nat; action : Action; response : nat }.

#[local] Instance poolAction_eq_dec : EqDecision poolAction.
Proof. solve_decision. Defined.

(** A [work] goroutine (lines 65-74): blocked in the [select], inside
    [a.action.Execute(a.ctx)], about to send the result [r] on
    [a.response], or returned. *)
Inductive worker :=
  | Idle
  | Running (a : poolAction)
  | Sending (a : poolAction) (r : option error)
  | Exited.

(** The locals of [Execute] after line 36: the derived [ctx], [res], [err]
    and [queued]. *)
Record frame := Frame {
  f_ctx : nat;
  f_res : nat;
  f_err : option error;
  f_queued : nat }.

(** Where a call of [Execute] stands: at entry; in the [select] of line 41
    for the action [a], with [rest] still to range over; at the head of the
    collection loop of line 53; or returned. *)
Inductive pc :=
  | Entry
  | Enqueue (fr : frame) (a : Action) (rest : list Action)
  | Collect (fr : frame)
  | Returned (r : option error).

(** A call [p.Execute(ctx, actions)] with its arguments. *)
Record call := Call { c_ctx : nat; c_actions : list Action; c_pc : pc }.

(** The whole program: [p.done] (closed or not), [p.in] (capacity and
    buffer), the [work] goroutines, the context store, the result channels
    and the calls of [Execute].  Every call makes at most one result channel
    (line 33): the channel made by the call [i] is stored under [i]. *)
Record state := State {
  done : bool;
  in_cap : nat;
  in_buf : list poolAction;
  workers : list worker;
  ctxs : list context;
  chans : gmap nat chan;
  calls : list call }.

Definition with_done (d : bool) (s : state) : state :=
  State d (in_cap s) (in_buf s) (workers s) (ctxs s) (chans s) (calls s).
Definition with_in (q : list poolAction) (s : state) : state :=
  State (done s) (in_cap s) q (workers s) (ctxs s) (chans s) (calls s).
Definition with_workers (ws : list worker) (s : state) : state :=
  State (done s) (in_cap s) (in_buf s) ws (ctxs s) (chans s) (calls s).
Definition with_ctxs (cs : list context) (s : state) : state :=
  State (done s) (in_cap s) (in_buf s) (workers s) cs (chans s) (calls s).
Definition with_chans (hs : gmap nat chan) (s : state) : state :=
  State (done s) (in_cap s) (in_buf s) (workers s) (ctxs s) hs (calls s).
Definition with_calls (cl : list call) (s : state) : state :=
  State (done s) (in_cap s) (in_buf s) (workers s) (ctxs s) (chans s) cl.

Definition set_pc (i : nat) (c : call) (p : pc) (s : state) : state :=
  with_calls (<[i := Call (c_ctx c) (c_actions c) p]> (calls s)) s.
Definition set_worker (w : nat) (x : worker) (s : state) : state :=
  with_workers (<[w := x]> (workers s)) s.
Definition set_buf (ch : nat) (h : chan) (b : list (option error)) (s : state) : state :=
  with_chans (<[ch := Chan (cap h) b]> (chans s)) s.

(** ** Pool *)

(** Lines 81-83: the number of workers [Pool(n, done)] settles on. *)
Definition effective (n : Z) : Z := if (n <=? 0)%Z then NumCPU else n.

(** Lines 87-89: [for i := 0; i < n; i++ { go p.work(p.in, p.done) }]; each
    goroutine starts at the [select]. *)
Fixpoint spawn (k : nat) (ws : list worker) : list worker :=
  match k with
  | O => ws
  | S k' => spawn k' (ws ++ [Idle])
  end.

(** [Pool(n, done)], lines 80-92; [closed] tells whether the caller's [done]
    is already closed.  No context, result channel or call exists yet. *)
Definition Pool (n : Z) (closed : bool) : state :=
  let n := effective n in
  State closed (Z.to_nat n) [] (spawn (Z.to_nat n) []) [] ∅ [].

(** ** Events *)

Inductive event :=
  (* the environment *)
  | EvNewCtx                                  (* a caller makes a context *)
  | EvCancelCtx (c : nat) (e : error)         (* a caller's context ends *)
  | EvClose                                   (* close(done) *)
  | EvCall (c : nat) (actions : list Action)  (* go p.Execute(c, actions) *)
  (* the call [i] of Execute *)
  | EvBegin (i : nat)                         (* lines 25-36 *)
  | EvEnqDone (i : nat)                       (* lines 42-44 *)
  | EvEnqCtx (i : nat) (e : error)            (* lines 45-47 *)
  | EvEnqSend (i : nat) (pa : poolAction)     (* lines 48-49 *)
  | EvRecv (i : nat) (r : option error)       (* lines 53-60 *)
  | EvReturn (i : nat) (r : option error)     (* line 62 and the defer *)
  (* the worker [w] *)
  | EvWDone (w : nat)                         (* lines 68-69 *)
  | EvWRecv (w : nat) (pa : poolAction)       (* line 70 *)
  | EvWFinish (w : nat) (pa : poolAction) (r : option error)  (* the call of line 71 *)
  | EvWSend (w : nat) (pa : poolAction) (r : option error).   (* the send of line 71 *)

(** ** One step of Execute *)

(** Line 53-60, one iteration: [queued--] after the body; the first non-nil
    result is kept and cancels the derived context. *)
Definition collect1 (fr : frame) (r : option error) (cs : list context)
    : frame * list context :=
  match r, f_err fr with
  | Some e, None =>
      (Frame (f_ctx fr) (f_res fr) (Some e) (f_queued fr - 1),
       cancel (f_ctx fr) Canceled cs)
  | _, _ => (Frame (f_ctx fr) (f_res fr) (f_err fr) (f_queued fr - 1), cs)
  end.

(** After the send of line 48: the next action of the range, or the
    collection loop when there is none. *)
Definition after_send (fr : frame) (rest : list Action) : pc :=
  match rest with
  | [] => Collect fr
  | a :: rest' => Enqueue fr a rest'
  end.

Definition step_call (s : state) (i : nat) (ev : event) (c : call) : option state :=
  match ev, c_pc c with
  | EvBegin _, Entry =>
      match c_actions c with
      | [] => Some (set_pc i c (Returned None) s)                  (* 26-28 *)
      | a :: rest =>
          let fr := Frame (length (ctxs s)) i None 0 in
          Some (set_pc i c (Enqueue fr a rest)
                 (with_chans (<[i := Chan (length (c_actions c)) []]> (chans s)) (* 33 *)
                   (with_ctxs (WithCancel (c_ctx c) (ctxs s)) s)))            (* 30 *)
      end
  | EvEnqDone _, Enqueue fr a rest =>
      guard (done s = true);;
      Some (set_pc i c (Returned (Some pool_is_closed))
             (with_ctxs (cancel (f_ctx fr) Canceled (ctxs s)) s))
  | EvEnqCtx _ e, Enqueue fr a rest =>
      guard (ctx_Err (ctxs s) (f_ctx fr) = Some e);;
      Some (set_pc i c (Collect (Frame (f_ctx fr) (f_res fr) (Some e) (f_queued fr))) s)
  | EvEnqSend _ pa, Enqueue fr a rest =>
      guard (pa = PoolAction (f_ctx fr) a (f_res fr));;
      guard (length (in_buf s) < in_cap s);;
      let fr' := Frame (f_ctx fr) (f_res fr) (f_err fr) (S (f_queued fr)) in
      Some (set_pc i c (after_send fr' rest) (with_in (in_buf s ++ [pa]) s))
  | EvRecv _ r, Collect fr =>
      guard (0 < f_queued fr);;
      h ← chans s !! f_res fr;
      match buf h with
      | [] => None
      | r0 :: b =>
          guard (r = r0);;
          let '(fr', cs) := collect1 fr r (ctxs s) in
          Some (set_pc i c (Collect fr') (with_ctxs cs (set_buf (f_res fr) h b s)))
      end
  | EvReturn _ r, Collect fr =>
      guard (f_queued fr = 0);;
      guard (r = f_err fr);;
      Some (set_pc i c (Returned r)
             (with_ctxs (cancel (f_ctx fr) Canceled (ctxs s)) s))
  | _, _ => None
  end.

(** ** One step of work *)

Definition step_worker (s : state) (w : nat) (ev : event) (x : worker) : option state :=
  match ev, x with
  | EvWDone _, Idle =>
      guard (done s = true);;
      Some (set_worker w Exited s)
  | EvWRecv _ pa, Idle =>
      match in_buf s with
      | [] => None
      | pa0 :: q =>
          guard (pa = pa0);;
          Some (set_worker w (Running pa) (with_in q s))
      end
  | EvWFinish _ pa r, Running pa0 =>
      guard (pa = pa0);;
      guard (r = action_Execute (action pa) (ctx_Err (ctxs s) (ctx pa)));;
      Some (set_worker w (Sending pa r) s)
  | EvWSend _ pa r, Sending pa0 r0 =>
      guard (pa = pa0);;
      guard (r = r0);;
      h ← chans s !! response pa;
      guard (length (buf h) < cap h);;
      Some (set_worker w Idle (set_buf (response pa) h (buf h ++ [r]) s))
  | _, _ => None
  end.

(** ** The interpreter *)

Definition step (s : state) (ev : event) : option state :=
  match ev with
  | EvNewCtx => Some (with_ctxs (ctxs s ++ [Context None None]) s)
  | EvCancelCtx c e =>
      x ← ctxs s !! c;
      guard (parent x = None);;
      guard (Err x = None);;
      guard (e = Canceled ∨ e = DeadlineExceeded);;
      Some (with_ctxs (cancel c e (ctxs s)) s)
  | EvClose =>
      guard (done s = false);;
      Some (with_done true s)
  | EvCall c acts =>
      x ← ctxs s !! c;
      guard (parent x = None);;
      Some (with_calls (calls s ++ [Call c acts Entry]) s)
  | EvBegin i | EvEnqDone i | EvEnqCtx i _ | EvEnqSend i _
  | EvRecv i _ | EvReturn i _ =>
      calls s !! i ≫= step_call s i ev
  | EvWDone w | EvWRecv w _ | EvWFinish w _ _ | EvWSend w _ _ =>
      workers s !! w ≫= step_worker s w ev
  end.

Definition run (s : state) (evs : list event) : option state :=
  foldl (λ o ev, o ≫= λ s, step s ev) (Some s) evs.

(** ** The steps as a relation *)

(** [Step s ev s'] lists the cases of [step] with their side conditions; it
    is [step s ev = Some s'] ([step_Step] below) in the form proofs by
    cases use. *)
Inductive Step : state → event → state → Prop :=
  | SNewCtx s :
      Step s EvNewCtx (with_ctxs (ctxs s ++ [Context None None]) s)
  | SCancelCtx s c e x
      (Hc : ctxs s !! c = Some x) (Hroot : parent x = None) (Hlive : Err x = None)
      (He : e = Canceled ∨ e = DeadlineExceeded) :
      Step s (EvCancelCtx c e) (with_ctxs (cancel c e (ctxs s)) s)
  | SClose s (Hopen : done s = false) :
      Step s EvClose (with_done true s)
  | SCall s c acts x
      (Hc : ctxs s !! c = Some x) (Hroot : parent x = None) :
      Step s (EvCall c acts) (with_calls (calls s ++ [Call c acts Entry]) s)
  | SBeginEmpty s i c
      (Hi : calls s !! i = Some c) (Hpc : c_pc c = Entry) (Hacts : c_actions c = []) :
      Step s (EvBegin i) (set_pc i c (Returned None) s)
  | SBegin s i c a rest
      (Hi : calls s !! i = Some c) (Hpc : c_pc c = Entry)
      (Hacts : c_actions c = a :: rest) :
      Step s (EvBegin i)
        (set_pc i c (Enqueue (Frame (length (ctxs s)) i None 0) a rest)
           (with_chans (<[i := Chan (length (c_actions c)) []]> (chans s))
              (with_ctxs (WithCancel (c_ctx c) (ctxs s)) s)))
  | SEnqDone s i c fr a rest
      (Hi : calls s !! i = Some c) (Hpc : c_pc c = Enqueue fr a rest)
      (Hclosed : done s = true) :
      Step s (EvEnqDone i)
        (set_pc i c (Returned (Some pool_is_closed))
           (with_ctxs (cancel (f_ctx fr) Canceled (ctxs s)) s))
  | SEnqCtx s i c fr a rest e
      (Hi : calls s !! i = Some c) (Hpc : c_pc c = Enqueue fr a rest)
      (Herr : ctx_Err (ctxs s) (f_ctx fr) = Some e) :
      Step s (EvEnqCtx i e)
        (set_pc i c (Collect (Frame (f_ctx fr) (f_res fr) (Some e) (f_queued fr))) s)
  | SEnqSend s i c fr a rest
      (Hi : calls s !! i = Some c) (Hpc : c_pc c = Enqueue fr a rest)
      (Hroom : length (in_buf s) < in_cap s) :
      Step s (EvEnqSend i (PoolAction (f_ctx fr) a (f_res fr)))
        (set_pc i c
           (after_send (Frame (f_ctx fr) (f_res fr) (f_err fr) (S (f_queued fr))) rest)
           (with_in (in_buf s ++ [PoolAction (f_ctx fr) a (f_res fr)]) s))
  | SRecv s i c fr h r b fr' cs
      (Hi : calls s !! i = Some c) (Hpc : c_pc c = Collect fr)
      (Hq : 0 < f_queued fr)
      (Hh : chans s !! f_res fr = Some h) (Hbuf : buf h = r :: b)
      (Hcol : collect1 fr r (ctxs s) = (fr', cs)) :
      Step s (EvRecv i r)
        (set_pc i c (Collect fr') (with_ctxs cs (set_buf (f_res fr) h b s)))
  | SReturn s i c fr
      (Hi : calls s !! i = Some c) (Hpc : c_pc c = Collect fr)
      (Hq : f_queued fr = 0) :
      Step s (EvReturn i (f_err fr))
        (set_pc i c (Returned (f_err fr))
           (with_ctxs (cancel (f_ctx fr) Canceled (ctxs s)) s))
  | SWDone s w
      (Hw : workers s !! w = Some Idle) (Hclosed : done s = true) :
      Step s (EvWDone w) (set_worker w Exited s)
  | SWRecv s w pa q
      (Hw : workers s !! w = Some Idle) (Hin : in_buf s = pa :: q) :
      Step s (EvWRecv w pa) (set_worker w (Running pa) (with_in q s))
  | SWFinish s w pa
      (Hw : workers s !! w = Some (Running pa)) :
      Step s (EvWFinish w pa (action_Execute (action pa) (ctx_Err (ctxs s) (ctx pa))))
        (set_worker w
           (Sending pa (action_Execute (action pa) (ctx_Err (ctxs s) (ctx pa)))) s)
  | SWSend s w pa r h
      (Hw : workers s !! w = Some (Sending pa r))
      (Hh : chans s !! response pa = Some h) (Hroom : length (buf h) < cap h) :
      Step s (EvWSend w pa r)
        (set_worker w Idle (set_buf (response pa) h (buf h ++ [r]) s)).

(** ** Well-formed states *)

(** The frame of a call that is past line 36 and has not returned. *)
Definition frame_of (p : pc) : option frame :=
  match p with Enqueue fr _ _ | Collect fr => Some fr | _ => None end.

(** The envelope a worker holds. *)
Definition envelope (x : worker) : option poolAction :=
  match x with Running pa | Sending pa _ => Some pa | _ => None end.

(** An envelope in flight: its result channel exists, its action is one of
    the batch, and its context is the derived context of the batch. *)
Definition env_ok (s : state) (pa : poolAction) : Prop :=
  is_Some (chans s !! response pa) ∧
  ∀ c, calls s !! response pa = Some c →
    action pa ∈ c_actions c ∧
    ∀ fr, frame_of (c_pc c) = Some fr → ctx pa = f_ctx fr.

(** What holds of every state the program reaches: a live call [i] has the
    result channel [i] and a derived context of its own, whose parent is the
    caller's context; the actions still to enqueue are a suffix of the batch;
    callers' contexts are roots; a result channel belongs to a call that has
    begun and has the capacity of line 33; envelopes are in order; a worker
    has returned only if [done] is closed. *)
Record wf (s : state) : Prop := {
  wf_frame : ∀ i c fr, calls s !! i = Some c → frame_of (c_pc c) = Some fr →
      f_res fr = i ∧ is_Some (chans s !! i) ∧
      ∃ x, ctxs s !! f_ctx fr = Some x ∧ parent x = Some (c_ctx c);
  wf_rest : ∀ i c fr a rest, calls s !! i = Some c →
      c_pc c = Enqueue fr a rest → (a :: rest) `suffix_of` c_actions c;
  wf_distinct : ∀ i j ci cj fi fj,
      calls s !! i = Some ci → calls s !! j = Some cj →
      frame_of (c_pc ci) = Some fi → frame_of (c_pc cj) = Some fj →
      f_ctx fi = f_ctx fj → i = j;
  wf_root : ∀ i c, calls s !! i = Some c →
      ∃ x, ctxs s !! c_ctx c = Some x ∧ parent x = None;
  wf_chan : ∀ i h, chans s !! i = Some h →
      ∃ c, calls s !! i = Some c ∧ c_pc c ≠ Entry ∧ cap h = length (c_actions c);
  wf_queue : ∀ pa, pa ∈ in_buf s → env_ok s pa;
  wf_worker : ∀ w x pa,
      workers s !! w = Some x → envelope x = Some pa → env_ok s pa;
  wf_exited : ∀ w, workers s !! w = Some Exited → done s = true }.

(** ** Histories and counters *)

(** The call an event belongs to, and the worker. *)
Definition caller (ev : event) : option nat :=
  match ev with
  | EvBegin i | EvEnqDone i | EvEnqCtx i _ | EvEnqSend i _
  | EvRecv i _ | EvReturn i _ => Some i
  | _ => None
  end.

(** The events of the program itself, as opposed to its environment. *)
Definition internal (ev : event) : bool :=
  match ev with
  | EvNewCtx | EvCancelCtx _ _ | EvClose | EvCall _ _ => false
  | _ => true
  end.

(** What a schedule did for the batch of the call [i]: the actions the call
    put on [p.in], the results it took from [res]; the actions workers
    started for it, the results those returned, and the results the workers
    sent on [res]. *)
Definition enqueued (i : nat) (evs : list event) : list Action :=
  omap (λ ev, match ev with
              | EvEnqSend j pa => if decide (j = i) then Some (action pa) else None
              | _ => None
              end) evs.
Definition received (i : nat) (evs : list event) : list (option error) :=
  omap (λ ev, match ev with
              | EvRecv j r => if decide (j = i) then Some r else None
              | _ => None
              end) evs.
Definition started (i : nat) (evs : list event) : list Action :=
  omap (λ ev, match ev with
              | EvWRecv _ pa => if decide (response pa = i) then Some (action pa) else None
              | _ => None
              end) evs.
Definition finished (i : nat) (evs : list event) : list (option error) :=
  omap (λ ev, match ev with
              | EvWFinish _ pa r => if decide (response pa = i) then Some r else None
              | _ => None
              end) evs.
Definition sent (i : nat) (evs : list event) : list (option error) :=
  omap (λ ev, match ev with
              | EvWSend _ pa r => if decide (response pa = i) then Some r else None
              | _ => None
              end) evs.

(** The number of actions being executed: workers inside
    [a.action.Execute(a.ctx)]. *)
Definition is_running (x : worker) : nat :=
  match x with Running _ => 1 | _ => 0 end.
Definition executing (s : state) : nat := sum_list_with is_running (workers s).

(** The program counter of the call [i]. *)
Definition pc_of (s : state) (i : nat) : option pc := c_pc <$> calls s !! i.

(** The envelopes of the batch [i] waiting in [p.in], the workers running
    one, the workers about to send a result [r] for it (weighted by [wt r]),
    and the results waiting in its result channel. *)
Definition queued_for (i : nat) (s : state) : list poolAction :=
  filter (λ pa, response pa = i) (in_buf s).
Definition running_for (i : nat) (x : worker) : nat :=
  match x with
  | Running pa => if decide (response pa = i) then 1 else 0
  | _ => 0
  end.
Definition sending_for (wt : option error → nat) (i : nat) (x : worker) : nat :=
  match x with
  | Sending pa r => if decide (response pa = i) then wt r else 0
  | _ => 0
  end.
Definition buffered (i : nat) (s : state) : list (option error) :=
  from_option buf [] (chans s !! i).

(** The envelopes of the batch [i] that have been put on [p.in] and whose
    result is not yet in the result channel. *)
Definition inflight (i : nat) (s : state) : nat :=
  length (queued_for i s)
  + sum_list_with (running_for i) (workers s)
  + sum_list_with (sending_for (λ _, 1) i) (workers s).

(** The error the call [i] took from [ctx.Err()] in the enqueue loop (line
    46), the first non-nil result of a list, and the error the call has
    recorded in [err]: the one of line 46 if any, else the first non-nil
    result received (lines 54-57). *)
Definition observed (i : nat) (evs : list event) : option error :=
  head (omap (λ ev, match ev with
                    | EvEnqCtx j e => if decide (j = i) then Some e else None
                    | _ => None
                    end) evs).
Definition first_error (rs : list (option error)) : option error :=
  head (omap id rs).
Definition recorded (i : nat) (evs : list event) : option error :=
  from_option Some (first_error (received i evs)) (observed i evs).

(** How the locals of the call [i] relate to what it has done so far. *)
Definition call_hist (i : nat) (evs : list event) (acts : list Action) (p : pc) : Prop :=
  match p with
  | Entry =>
      (EvEnqDone i ∉ evs) ∧ enqueued i evs = [] ∧ received i evs = [] ∧
      observed i evs = None
  | Enqueue fr a rest =>
      (EvEnqDone i ∉ evs) ∧ enqueued i evs ++ a :: rest = acts ∧
      f_queued fr = length (enqueued i evs) ∧ f_err fr = None ∧
      received i evs = [] ∧ observed i evs = None
  | Collect fr =>
      (EvEnqDone i ∉ evs) ∧ (enqueued i evs `prefix_of` acts) ∧
      (observed i evs = None → enqueued i evs = acts) ∧
      length (received i evs) + f_queued fr = length (enqueued i evs) ∧
      f_err fr = recorded i evs
  | Returned r =>
      (enqueued i evs `prefix_of` acts) ∧
      ((EvEnqDone i ∈ evs ∧ r = Some pool_is_closed ∧ received i evs = []) ∨
       ((EvEnqDone i ∉ evs) ∧
        (observed i evs = None → enqueued i evs = acts) ∧
        length (received i evs) = length (enqueued i evs) ∧
        r = recorded i evs))
  end.

(** The bookkeeping of a schedule [evs] that leads to [s]: [p.in] is a
    queue, so the actions started for a batch and those of its envelopes
    still in [p.in] are, in order, the actions enqueued; a started action
    has finished or is running; a result of a finished action has been sent
    or is about to be; a result sent has been received or is in the result
    channel; and every call is where its own events put it. *)
Record hist (evs : list event) (s : state) : Prop := {
  hist_queue : ∀ i,
      started i evs ++ (action <$> queued_for i s) = enqueued i evs;
  hist_running : ∀ i,
      length (started i evs)
      = length (finished i evs) + sum_list_with (running_for i) (workers s);
  hist_sending : ∀ i wt,
      sum_list_with wt (finished i evs)
      = sum_list_with wt (sent i evs) + sum_list_with (sending_for wt i) (workers s);
  hist_chan : ∀ i, received i evs ++ buffered i s = sent i evs;
  hist_call : ∀ i,
      match calls s !! i with
      | Some c => call_hist i evs (c_actions c) (c_pc c)
      | None => call_hist i evs [] Entry
      end }.

(** The worker an event belongs to. *)
Definition worker_of (ev : event) : option nat :=
  match ev with
  | EvWDone w | EvWRecv w _ | EvWFinish w _ _ | EvWSend w _ _ => Some w
  | _ => None
  end.

(** What the worker [w] did: the envelopes it took from [p.in]; the
    envelopes whose action has returned, with what it returned; and the
    envelopes for which it sent a result on their [response], with the
    result. *)
Definition taken (w : nat) (evs : list event) : list poolAction :=
  omap (λ ev, match ev with
              | EvWRecv v pa => if decide (v = w) then Some pa else None
              | _ => None
              end) evs.
Definition returned (w : nat) (evs : list event) : list (poolAction * option error) :=
  omap (λ ev, match ev with
              | EvWFinish v pa r => if decide (v = w) then Some (pa, r) else None
              | _ => None
              end) evs.
Definition delivered (w : nat) (evs : list event) : list (poolAction * option error) :=
  omap (λ ev, match ev with
              | EvWSend v pa r => if decide (v = w) then Some (pa, r) else None
              | _ => None
              end) evs.

(** Where the worker stands against what it did: every envelope taken has
    been answered once, in order, with what its action returned, except the
    one in hand. *)
Definition worker_hist (w : nat) (evs : list event) (x : worker) : Prop :=
  match x with
  | Idle | Exited =>
      taken w evs = (fst <$> delivered w evs) ∧
      returned w evs = delivered w evs
  | Running pa =>
      taken w evs = (fst <$> delivered w evs) ++ [pa] ∧
      returned w evs = delivered w evs
  | Sending pa r =>
      taken w evs = (fst <$> delivered w evs) ++ [pa] ∧
      returned w evs = delivered w evs ++ [(pa, r)]
  end.

(** [r] is what [pa.action.Execute(pa.ctx)] returns, for some state of the
    context. *)
Definition is_result (x : poolAction * option error) : Prop :=
  ∃ v, x.2 = action_Execute (action x.1) v.

(** The weight of a non-nil result. *)
Definition non_nil (r : option error) : nat :=
  match r with Some _ => 1 | None => 0 end.

(** The batch of the call [i], made with the caller's context [c0], is left
    alone: [done] is open, the caller's context is live, and while the call
    runs its derived context is live, [err] is nil and the actions finished
    for it have returned nil (given that its actions return nil under a live
    context); once returned, it has returned nil. *)
Definition quiet (i c0 : nat) (evs : list event) (s : state) : Prop :=
  done s = false ∧
  (∀ x, ctxs s !! c0 = Some x → parent x = None → Err x = None) ∧
  ∀ c, calls s !! i = Some c → c_ctx c = c0 →
    (∀ a, a ∈ c_actions c → action_Execute a None = None) →
    match c_pc c with
    | Entry => True
    | Enqueue fr _ _ | Collect fr =>
        ctx_Err (ctxs s) (f_ctx fr) = None ∧ f_err fr = None ∧
        Forall (λ r, r = None) (finished i evs)
    | Returned r => r = None
    end.

(** ** A bound on the steps left *)

(** The steps a call, an envelope in [p.in] and a worker can still take,
    counted generously: every step of the program lowers the sum. *)
Definition call_weight (c : call) : nat :=
  match c_pc c with
  | Entry => 3 + 6 * length (c_actions c)
  | Enqueue fr a rest => 2 + 6 * S (length rest) + f_queued fr
  | Collect fr => 1 + f_queued fr
  | Returned _ => 0
  end.
Definition worker_weight (x : worker) : nat :=
  match x with
  | Exited => 0
  | Idle => 1
  | Sending _ _ => 2
  | Running _ => 3
  end.
Definition weight (s : state) : nat :=
  sum_list_with call_weight (calls s)
  + 4 * length (in_buf s)
  + sum_list_with worker_weight (workers s).

(** Every call has returned. *)
Definition all_returned (s : state) : Prop :=
  ∀ i c, calls s !! i = Some c → ∃ r, c_pc c = Returned r.

(** The next step of a worker that holds an envelope: the return of the
    action, then the send of its result, which finds room; the worker can
    take no other step. *)
Definition worker_next (s : state) (w : nat) (x : worker) : Prop :=
  match x with
  | Running pa =>
      let r := action_Execute (action pa) (ctx_Err (ctxs s) (ctx pa)) in
      (∃ s', step s (EvWFinish w pa r) = Some s' ∧
             workers s' !! w = Some (Sending pa r)) ∧
      (∀ ev s', worker_of ev = Some w → step s ev = Some s' →
                ev = EvWFinish w pa r)
  | Sending pa r =>
      (∃ s', step s (EvWSend w pa r) = Some s' ∧
             workers s' !! w = Some Idle ∧
             buffered (response pa) s' = buffered (response pa) s ++ [r]) ∧
      (∀ ev s', worker_of ev = Some w → step s ev = Some s' →
                ev = EvWSend w pa r)
  | _ => True
  end.

(** The actions of the batch [i] that have returned, each with what it
    returned. *)
Definition outcomes (i : nat) (evs : list event) : list (Action * option error) :=
  omap (λ ev, match ev with
              | EvWFinish _ pa r =>
                  if decide (response pa = i) then Some (action pa, r) else None
              | _ => None
              end) evs.

(** The envelopes of the batch [i] in [p.in] or in the hands of a worker
    carry the context [k]. *)
Definition carried (i k : nat) (s : state) : Prop :=
  (∀ pa, pa ∈ in_buf s → response pa = i → ctx pa = k) ∧
  (∀ w x pa, workers s !! w = Some x → envelope x = Some pa →
     response pa = i → ctx pa = k).

(** [e] is what an action finished for the batch [i] returned, and what it
    returns when run with a live context. *)
Definition live_result (i : nat) (evs : list event) (e : error) : Prop :=
  ∃ a, (a, Some e) ∈ outcomes i evs ∧ action_Execute a None = Some e.

(** A call whose caller's context is live: while it has recorded no error,
    its derived context is live and the actions finished for it were run with
    a live context; the error it has recorded or returned, unless it is the
    one of line 43, is what an action returned when run with a live
    context. *)
Definition genuine (i : nat) (evs : list event) (s : state) (p : pc) : Prop :=
  match p with
  | Entry => True
  | Enqueue fr _ _ | Collect fr =>
      match f_err fr with
      | None =>
          ctx_Err (ctxs s) (f_ctx fr) = None ∧
          Forall (λ x, x.2 = action_Execute x.1 None) (outcomes i evs)
      | Some e => live_result i evs e
      end
  | Returned r => ∀ e, r = Some e → EvEnqDone i ∈ evs ∨ live_result i evs e
  end.

(** * Properties *)

Ltac step_inv H :=
  unfold step, step_call, step_worker in H;
  repeat (simplify_option_eq || case_match).

(** ** Pool *)

Lemma spawn_replicate k ws : spawn k ws = ws ++ replicate k Idle.
Proof.
  revert ws. induction k as [|k IH]; intros ws; simpl.
  - by rewrite app_nil_r.
  - by rewrite IH, <- app_assoc.
Qed.

Lemma Pool_workers n d : workers (Pool n d) = replicate (Z.to_nat (effective n)) Idle.
Proof. unfold Pool; simpl. by rewrite spawn_replicate. Qed.

(** C6. [Pool(n, done)] makes [p.in] with the effective worker count as its
    capacity and starts that many workers, each at its [select]; the count
    is [n] when [n > 0] and [runtime.NumCPU()] otherwise.  The workers share
    the queue and the shutdown signal: whichever worker is taken, it can
    receive an envelope put on [p.in], and it returns once [done] is
    closed. *)
Theorem Pool_spec (n : Z) (d : bool) :
  let k := Z.to_nat (effective n) in
  effective n = (if decide (0 < n)%Z then n else NumCPU) ∧
  in_cap (Pool n d) = k ∧
  in_buf (Pool n d) = [] ∧
  done (Pool n d) = d ∧
  length (workers (Pool n d)) = k ∧
  (∀ w, w < k ↔ workers (Pool n d) !! w = Some Idle) ∧
  (∀ w pa, w < k ↔
     step (with_in [pa] (Pool n d)) (EvWRecv w pa)
     = Some (set_worker w (Running pa) (Pool n d))) ∧
  (∀ w, w < k ↔
     step (Pool n true) (EvWDone w) = Some (set_worker w Exited (Pool n true))).
Proof.
  intros k.
  assert (Hw : ∀ w, w < k ↔ workers (Pool n d) !! w = Some Idle).
  { intros w. rewrite Pool_workers. fold k. split.
    - intros Hlt. by apply lookup_replicate_2.
    - intros [_ Hlt]%lookup_replicate. done. }
  split_and!; try done.
  - unfold effective. case_decide; destruct (Z.leb_spec n 0); done || lia.
  - rewrite Pool_workers. apply length_replicate.
  - intros w pa. rewrite Hw. unfold step; simpl. split.
    + intros ->. simpl. by rewrite option_guard_True.
    + by destruct (spawn _ _ !! w) as [[]|].
  - intros w. rewrite Hw. unfold step; simpl. split.
    + intros ->. done.
    + by destruct (spawn _ _ !! w) as [[]|].
Qed.

(** ** The relation and the interpreter agree *)

Lemma step_Step s ev s' : step s ev = Some s' ↔ Step s ev s'.
Proof.
  split.
  - intros H. destruct ev; step_inv H; try (by econstructor).
    match goal with
    | Ha : c_actions ?c = ?a :: ?l |- _ =>
        change (S (length l)) with (length (a :: l)); rewrite <- Ha
    end.
    by econstructor.
  - destruct 1; unfold step, step_call, step_worker; simpl;
      simplify_option_eq; try done.
    all: try rewrite Hpc; try rewrite Hacts; try rewrite Hin;
      try rewrite Hcol; simplify_option_eq; try done.
    rewrite Hbuf. by simplify_option_eq.
Qed.

(** ** What no step changes *)

Lemma step_frame s ev s' :
  step s ev = Some s' →
  length (workers s') = length (workers s) ∧ in_cap s' = in_cap s.
Proof.
  intros H. destruct ev; step_inv H; simpl; rewrite ?length_insert; try done.
  all: unfold collect1 in *; repeat case_match; by simplify_eq.
Qed.

Lemma run_snoc s evs ev : run s (evs ++ [ev]) = run s evs ≫= λ s1, step s1 ev.
Proof. unfold run. by rewrite foldl_snoc. Qed.

Lemma run_nil s : run s [] = Some s.
Proof. done. Qed.

Lemma run_cons s ev evs : run s (ev :: evs) = step s ev ≫= λ s1, run s1 evs.
Proof.
  unfold run; simpl. destruct (step s ev) as [s1|]; simpl; [done|].
  induction evs as [|e evs IH] using rev_ind; [done|].
  by rewrite foldl_snoc, IH.
Qed.

Lemma run_app s evs1 evs2 : run s (evs1 ++ evs2) = run s evs1 ≫= λ s1, run s1 evs2.
Proof.
  revert s. induction evs1 as [|ev evs1 IH]; intros s; [done|].
  rewrite <- app_comm_cons, !run_cons.
  destruct (step s ev) as [s1|]; simpl; [apply IH|done].
Qed.

(** Induction on a schedule, one event at a time from the start state. *)
Lemma run_ind (P : list event → state → Prop) (s0 : state) :
  P [] s0 →
  (∀ evs s ev s',
     run s0 evs = Some s → P evs s → step s ev = Some s' → P (evs ++ [ev]) s') →
  ∀ evs s, run s0 evs = Some s → P evs s.
Proof.
  intros H0 Hstep evs.
  induction evs as [|ev evs IH] using rev_ind; intros s Hrun.
  - rewrite run_nil in Hrun. by simplify_eq.
  - rewrite run_snoc in Hrun.
    destruct (run s0 evs) as [s1|] eqn:E; [|done]. simpl in Hrun. eauto.
Qed.

Lemma run_frame s evs s' :
  run s evs = Some s' →
  length (workers s') = length (workers s) ∧ in_cap s' = in_cap s.
Proof.
  revert s'.
  apply (run_ind (λ _ s', length (workers s') = length (workers s)
                          ∧ in_cap s' = in_cap s)); [done|].
  intros _ s1 ev s2 _ [<- <-] Hst. by apply step_frame in Hst.
Qed.

Lemma is_running_le ws : sum_list_with is_running ws ≤ length ws.
Proof. induction ws as [|[] ws IH]; simpl; lia. Qed.

(** C9. With an effective pool size of [n], at most [n] actions are being
    executed at any moment of any schedule, whatever the number of batches
    that share the pool. *)
Theorem concurrency_bound (n : Z) (d : bool) (evs : list event) (s : state) :
  run (Pool n d) evs = Some s →
  executing s ≤ Z.to_nat (effective n).
Proof.
  intros [Hlen _]%run_frame. unfold executing.
  etrans; [apply is_running_le|].
  rewrite Hlen, Pool_workers. by rewrite length_replicate.
Qed.

(** ** Contexts *)

Lemma cancel_lookup c e cs k :
  cancel c e cs !! k = cs !! k ∨
  ∃ x, cs !! k = Some x ∧ Err x = None ∧ (k = c ∨ parent x = Some c) ∧
       cancel c e cs !! k = Some (Context (parent x) (Some e)).
Proof.
  unfold cancel. destruct (cs !! c) as [[p [e0|]]|] eqn:Hc; auto.
  rewrite list_lookup_imap. destruct (cs !! k) as [x|] eqn:Hk; simpl; auto.
  unfold cancel_cell. case_decide; auto.
  right. exists x. naive_solver.
Qed.

Lemma cancel_parent_inv c e cs k x :
  cs !! k = Some x → ∃ x', cancel c e cs !! k = Some x' ∧ parent x' = parent x.
Proof.
  destruct (cancel_lookup c e cs k) as [->|(x0 & ? & _ & _ & ->)]; naive_solver.
Qed.

Lemma cancel_done c e cs :
  is_Some (cs !! c) → is_Some (ctx_Err (cancel c e cs) c).
Proof.
  intros [x Hx]. unfold ctx_Err, cancel. rewrite Hx.
  destruct x as [p [e0|]]; simpl.
  - rewrite Hx. by eexists.
  - rewrite list_lookup_imap, Hx. simpl. unfold cancel_cell; simpl.
    rewrite decide_True by auto. by eexists.
Qed.

(** ** Well-formedness is kept by every step *)

Lemma wf_Pool n d : wf (Pool n d).
Proof.
  split; simpl; try done.
  - intros pa H. by apply elem_of_nil in H.
  - intros w x pa H. rewrite spawn_replicate in H. simpl in H.
    apply lookup_replicate in H as [-> _]. done.
  - intros w H. rewrite spawn_replicate in H. simpl in H.
    apply lookup_replicate in H as [? _]. done.
Qed.

Lemma wf_with_ctxs cs' s :
  (∀ k x, ctxs s !! k = Some x → ∃ x', cs' !! k = Some x' ∧ parent x' = parent x) →
  wf s → wf (with_ctxs cs' s).
Proof.
  intros Hcs [F S D R C Q W X]. split; simpl; try done.
  - intros i c fr Hi Hfr. destruct (F i c fr Hi Hfr) as (? & ? & x & Hx & Hp).
    destruct (Hcs _ _ Hx) as (x' & ? & ?). split_and!; try done.
    exists x'. split; congruence.
  - intros i c Hi. destruct (R i c Hi) as (x & Hx & Hp).
    destruct (Hcs _ _ Hx) as (x' & ? & ?). exists x'. split; congruence.
Qed.

Lemma wf_cancel c e s : wf s → wf (with_ctxs (cancel c e (ctxs s)) s).
Proof. apply wf_with_ctxs. intros k x. apply cancel_parent_inv. Qed.

Lemma wf_with_done s : wf s → wf (with_done true s).
Proof. intros [F S D R C Q W X]. split; simpl; done. Qed.

Lemma wf_set_worker w x s :
  (∀ pa, envelope x = Some pa → env_ok s pa) →
  (x = Exited → done s = true) →
  wf s → wf (set_worker w x s).
Proof.
  intros Hx Hd [F S D R C Q W X]. split; simpl; try done.
  - intros w' x' pa [[-> [-> _]]|[_ H]]%list_lookup_insert_Some Hpa.
    + by apply Hx.
    + by apply (W w' x').
  - intros w' [[-> [? _]]|[_ H]]%list_lookup_insert_Some; eauto.
Qed.

Lemma wf_with_in q s :
  (∀ pa, pa ∈ q → env_ok s pa) → wf s → wf (with_in q s).
Proof. intros Hq [F S D R C Q W X]. split; simpl; done. Qed.

Lemma wf_set_buf ch h b s :
  chans s !! ch = Some h → wf s → wf (set_buf ch h b s).
Proof.
  intros Hh [F S D R C Q W X].
  assert (Hsome : ∀ i, is_Some (chans s !! i) → is_Some (<[ch:=Chan (cap h) b]> (chans s) !! i)).
  { intros i. rewrite lookup_insert_is_Some. destruct (decide (ch = i)); auto. }
  assert (Hok : ∀ pa, env_ok s pa → env_ok (set_buf ch h b s) pa).
  { intros pa [? ?]. split; simpl; auto. }
  split; simpl; try done.
  - intros i c fr Hi Hfr. destruct (F i c fr Hi Hfr) as (? & ? & ?). auto.
  - intros i h' [[-> <-]|[? ?]]%lookup_insert_Some; simpl; eauto.
  - eauto.
  - eauto.
Qed.

Lemma wf_set_pc i c p s :
  calls s !! i = Some c →
  p ≠ Entry →
  (∀ fr', frame_of p = Some fr' →
     ∃ fr, frame_of (c_pc c) = Some fr ∧ f_ctx fr' = f_ctx fr ∧ f_res fr' = f_res fr) →
  (∀ fr a rest, p = Enqueue fr a rest → (a :: rest) `suffix_of` c_actions c) →
  wf s → wf (set_pc i c p s).
Proof.
  intros Hi Hp Hfr Hrest [F S D R C Q W X].
  assert (Hok : ∀ pa, env_ok s pa → env_ok (set_pc i c p s) pa).
  { intros pa [? Hc]. split; simpl; [done|].
    intros c' [[Hr [<- _]]|[_ H']]%list_lookup_insert_Some; [|by apply Hc].
    rewrite Hr in Hi. destruct (Hc _ Hi) as [? Hctx]. split; [done|]. simpl.
    intros fr' (fr & ? & -> & _)%Hfr. by apply Hctx. }
  split; simpl; try done.
  - intros j c' fr' [[-> [<- _]]|[_ H']]%list_lookup_insert_Some; [|by apply F].
    simpl. intros (fr & Hf & -> & ->)%Hfr. by apply (F j c).
  - intros j c' fr a rest [[-> [<- _]]|[_ H']]%list_lookup_insert_Some; simpl; eauto.
  - intros j k cj ck fj fk Hj Hk Hfj Hfk Heq.
    apply list_lookup_insert_Some in Hj as [[-> [<- _]]|[? Hj]];
    apply list_lookup_insert_Some in Hk as [[-> [<- _]]|[? Hk]]; simpl in *; try done.
    + apply Hfr in Hfj as (fr & ? & Hc & _). rewrite Hc in Heq. eapply D; eauto.
    + apply Hfr in Hfk as (fr & ? & Hc & _). rewrite Hc in Heq. eapply D; eauto.
    + eapply D; eauto.
  - intros j c' [[-> [<- _]]|[_ H']]%list_lookup_insert_Some; simpl; eauto.
  - intros j h Hh. destruct (C j h Hh) as (c' & Hc' & ? & ?).
    destruct (decide (i = j)) as [->|].
    + eexists. rewrite list_lookup_insert_eq by (by eapply lookup_lt_Some).
      split; [done|]. simpl. split; [done|]. congruence.
    + exists c'. by rewrite list_lookup_insert_ne.
  - eauto.
  - eauto.
Qed.



Lemma collect1_spec fr r cs fr' cs' :
  collect1 fr r cs = (fr', cs') →
  f_ctx fr' = f_ctx fr ∧ f_res fr' = f_res fr ∧
  f_queued fr' = f_queued fr - 1 ∧
  f_err fr' = from_option Some r (f_err fr) ∧
  cs' = (if decide (f_err fr = None ∧ r ≠ None)
         then cancel (f_ctx fr) Canceled cs else cs).
Proof.
  unfold collect1. intros H.
  destruct r as [e|], (f_err fr) as [e0|] eqn:E; simplify_eq/=; split_and!; try done.
  all: case_decide; naive_solver.
Qed.

Lemma wf_call s c acts x :
  ctxs s !! c = Some x → parent x = None →
  wf s → wf (with_calls (calls s ++ [Call c acts Entry]) s).
Proof.
  intros Hc Hroot [F S D R C Q W X].
  assert (Hlook : ∀ j c', (calls s ++ [Call c acts Entry]) !! j = Some c' →
            calls s !! j = Some c' ∨ c' = Call c acts Entry).
  { intros j c0 [?|[_ [? ?]%list_lookup_singleton_Some]]%lookup_app_Some; auto. }
  assert (Hok : ∀ pa, env_ok s pa →
            env_ok (with_calls (calls s ++ [Call c acts Entry]) s) pa).
  { intros pa [Hsome Hcall]. split; [done|]. simpl.
    intros c' [?|[Hlen [_ <-]%list_lookup_singleton_Some]]%lookup_app_Some; [auto|].
    destruct Hsome as [h Hh]. destruct (C _ _ Hh) as (c0 & Hc0 & _).
    apply lookup_lt_Some in Hc0. lia. }
  split; simpl; try done.
  - intros j c' fr [?| ->]%Hlook; [eauto|done].
  - intros j c' fr a rest [?| ->]%Hlook; [eauto|done].
  - intros j k cj ck fj fk [?| ->]%Hlook [?| ->]%Hlook; try done. eauto.
  - intros j c' [?| ->]%Hlook; eauto.
  - intros j h Hh. destruct (C j h Hh) as (c0 & Hc0 & ?). exists c0.
    split; [|done]. by apply lookup_app_l_Some.
  - eauto.
  - eauto.
Qed.

Lemma wf_begin s i c a rest :
  calls s !! i = Some c → c_pc c = Entry → c_actions c = a :: rest →
  wf s →
  wf (set_pc i c (Enqueue (Frame (length (ctxs s)) i None 0) a rest)
        (with_chans (<[i := Chan (length (c_actions c)) []]> (chans s))
           (with_ctxs (WithCancel (c_ctx c) (ctxs s)) s))).
Proof.
  intros Hi Hpc Hacts [F S D R C Q W X].
  assert (Hnone : chans s !! i = None).
  { destruct (chans s !! i) as [h|] eqn:Hh; [|done].
    destruct (C i h Hh) as (c' & ? & ? & _). naive_solver. }
  assert (Hlt : ∀ j c' fr, calls s !! j = Some c' → frame_of (c_pc c') = Some fr →
            f_ctx fr < length (ctxs s)).
  { intros j c' fr Hj Hfr. destruct (F j c' fr Hj Hfr) as (_ & _ & x & Hx & _).
    by eapply lookup_lt_Some. }
  set (s' := set_pc _ _ _ _).
  assert (Hok : ∀ pa, env_ok s pa → env_ok s' pa).
  { intros pa [Hsome Hcall].
    assert (i ≠ response pa) by (intros ->; rewrite Hnone in Hsome; by destruct Hsome).
    split; simpl.
    - rewrite lookup_insert_ne; done.
    - rewrite list_lookup_insert_ne; done. }
  split; simpl; try done.
  - intros j c' fr [[-> [<- _]]|[? Hj]]%list_lookup_insert_Some; simpl.
    + intros [= <-]. simpl. split_and!; [done|by rewrite lookup_insert_eq|].
      eexists. split; [apply list_lookup_middle; done|done].
    + intros Hfr. destruct (F j c' fr Hj Hfr) as (? & ? & x & ? & ?).
      split_and!; [done|by rewrite lookup_insert_ne|].
      exists x. split; [by apply lookup_app_l_Some|done].
  - intros j c' fr a' rest' [[-> [<- _]]|[? Hj]]%list_lookup_insert_Some; simpl.
    + intros [= <- <- <-]. by rewrite Hacts.
    + eauto.
  - intros j k cj ck fj fk Hj Hk Hfj Hfk Heq.
    apply list_lookup_insert_Some in Hj as [[-> [<- _]]|[? Hj]];
    apply list_lookup_insert_Some in Hk as [[-> [<- _]]|[? Hk]];
      simplify_eq/=; try done.
    + specialize (Hlt _ _ _ Hk Hfk). lia.
    + specialize (Hlt _ _ _ Hj Hfj). lia.
    + eauto.
  - intros j c' [[-> [<- _]]|[? Hj]]%list_lookup_insert_Some; simpl.
    + destruct (R _ _ Hi) as (x & ? & ?). exists x.
      split; [by apply lookup_app_l_Some|done].
    + destruct (R _ _ Hj) as (x & ? & ?). exists x.
      split; [by apply lookup_app_l_Some|done].
  - intros j h [[-> <-]|[? Hh]]%lookup_insert_Some.
    + eexists. rewrite list_lookup_insert_eq by (by eapply lookup_lt_Some).
      done.
    + destruct (C j h Hh) as (c' & ? & ?). exists c'.
      by rewrite list_lookup_insert_ne.
  - eauto.
  - eauto.
Qed.

Lemma wf_step s ev s' : wf s → Step s ev s' → wf s'.
Proof.
  intros Hwf H. destruct H.
  - apply wf_with_ctxs; [|done]. intros k x Hk. exists x.
    split; [|done]. by apply lookup_app_l_Some.
  - by apply wf_cancel.
  - by apply wf_with_done.
  - by eapply wf_call.
  - by apply wf_set_pc.
  - by apply wf_begin.
  - apply wf_set_pc; [done..|]. by apply wf_cancel.
  - apply wf_set_pc; try done. rewrite Hpc. naive_solver.
  - assert (env_ok s (PoolAction (f_ctx fr) a (f_res fr))) as Hok.
    { destruct (wf_frame _ Hwf i c fr Hi) as (Hres & Hsome & _); [by rewrite Hpc|].
      split; simpl; rewrite Hres; [done|].
      intros c' ?; simplify_eq. split.
      - eapply elem_of_suffix; [|by eapply wf_rest]. by left.
      - rewrite Hpc. by intros fr' [= <-]. }
    apply wf_set_pc; simpl; try done.
    + by destruct rest.
    + rewrite Hpc. destruct rest; intros fr' [= <-]; eauto.
    + intros fr' a' rest' Heq. destruct rest; simplify_eq/=.
      eapply suffix_cons_l, wf_rest; eauto.
    + apply wf_with_in; [|done].
      intros pa [?| ->%list_elem_of_singleton]%elem_of_app; [|done].
      by apply (wf_queue _ Hwf).
  - apply collect1_spec in Hcol as (Hctx & Hres & _ & _ & ->).
    apply wf_set_pc; simpl; try done.
    { rewrite Hpc. intros fr0 [= <-]. eauto. }
    case_decide.
    + apply (wf_cancel _ _ (set_buf _ _ _ _)). by apply wf_set_buf.
    + change (wf (set_buf (f_res fr) h b s)). by apply wf_set_buf.
  - apply wf_set_pc; [done..|]. by apply wf_cancel.
  - by apply wf_set_worker.
  - apply wf_set_worker; [|done|].
    + intros pa' [= <-]. apply (wf_queue _ Hwf). rewrite Hin. by left.
    + apply wf_with_in; [|done]. intros pa' Hpa. apply (wf_queue _ Hwf).
      rewrite Hin. by right.
  - apply wf_set_worker; [|done..].
    intros pa' [= <-]. by apply (wf_worker _ Hwf w (Running pa)).
  - apply wf_set_worker; [done..|]. by apply wf_set_buf.
Qed.

Lemma wf_run n d evs s : run (Pool n d) evs = Some s → wf s.
Proof.
  revert s. apply (run_ind (λ _ s, wf s)); [apply wf_Pool|].
  intros _ s ev s' _ Hwf Hst%step_Step. by eapply wf_step.
Qed.

(** ** Histories *)

Lemma sum_list_with_insert {A} (f : A → nat) (l : list A) i x y :
  l !! i = Some x →
  sum_list_with f (<[i:=y]> l) + f x = sum_list_with f l + f y.
Proof.
  revert i. induction l as [|z l IH]; intros [|i] H; simplify_eq/=; [lia|].
  specialize (IH i H). lia.
Qed.

Lemma head_app_nil {A} (l k : list A) : head l = None → head (l ++ k) = head k.
Proof. by destruct l. Qed.

Lemma head_app_Some {A} (l k : list A) x : head l = Some x → head (l ++ k) = Some x.
Proof. by destruct l. Qed.

Lemma first_error_None rs : first_error rs = None ↔ Forall (λ r, r = None) rs.
Proof.
  unfold first_error. induction rs as [|[e|] rs IH]; simpl.
  - split; [constructor|done].
  - split; [done|]. by inversion 1.
  - rewrite IH. split; [by constructor|]. by inversion 1.
Qed.

Lemma hist_Pool n d : hist [] (Pool n d).
Proof.
  split; try done.
  - intros i. unfold Pool; simpl. rewrite spawn_replicate; simpl.
    induction (Z.to_nat _); simpl; auto.
  - intros i wt. unfold Pool; simpl. rewrite spawn_replicate; simpl.
    induction (Z.to_nat _); simpl; auto.
  - intros i. simpl. split_and!; try done. apply not_elem_of_nil.
Qed.

Lemma hist_queue_step s ev s' evs :
  wf s → Step s ev s' →
  (∀ i, started i evs ++ (action <$> queued_for i s) = enqueued i evs) →
  ∀ i, started i (evs ++ [ev]) ++ (action <$> queued_for i s') = enqueued i (evs ++ [ev]).
Proof.
  intros Hwf H IH i. specialize (IH i). revert IH.
  unfold started, enqueued, queued_for. rewrite !omap_app.
  destruct H; simpl; rewrite ?app_nil_r; try done.
  - destruct (wf_frame _ Hwf i0 c fr Hi) as (-> & _); [by rewrite Hpc|].
    rewrite filter_app, filter_cons, filter_nil. simpl.
    intros <-. case_decide; simpl; rewrite ?fmap_app, ?app_nil_r; [|done].
    by rewrite app_assoc.
  - rewrite Hin, filter_cons. intros <-.
    case_decide; simpl; by rewrite ?app_nil_r, <- ?app_assoc.
Qed.


Lemma hist_running_step s ev s' evs :
  Step s ev s' →
  (∀ i, length (started i evs)
        = length (finished i evs) + sum_list_with (running_for i) (workers s)) →
  ∀ i, length (started i (evs ++ [ev]))
       = length (finished i (evs ++ [ev])) + sum_list_with (running_for i) (workers s').
Proof.
  intros H IH i. specialize (IH i). revert IH.
  unfold started, finished. rewrite !omap_app, !length_app.
  destruct H; simpl; try (intros ->; lia).
  - pose proof (sum_list_with_insert (running_for i) _ _ _ Exited Hw). simpl in *. lia.
  - pose proof (sum_list_with_insert (running_for i) _ _ _ (Running pa) Hw).
    simpl in *. case_decide; simpl in *; lia.
  - pose proof (sum_list_with_insert (running_for i) _ _ _
                  (Sending pa (action_Execute (action pa) (ctx_Err (ctxs s) (ctx pa)))) Hw).
    simpl in *. case_decide; simpl in *; lia.
  - pose proof (sum_list_with_insert (running_for i) _ _ _ Idle Hw). simpl in *. lia.
Qed.

Lemma hist_sending_step s ev s' evs :
  Step s ev s' →
  (∀ i wt, sum_list_with wt (finished i evs)
           = sum_list_with wt (sent i evs) + sum_list_with (sending_for wt i) (workers s)) →
  ∀ i wt, sum_list_with wt (finished i (evs ++ [ev]))
          = sum_list_with wt (sent i (evs ++ [ev]))
            + sum_list_with (sending_for wt i) (workers s').
Proof.
  intros H IH i wt. specialize (IH i wt). revert IH.
  unfold finished, sent. rewrite !omap_app, !sum_list_with_app.
  destruct H; simpl; try (intros ->; lia).
  - pose proof (sum_list_with_insert (sending_for wt i) _ _ _ Exited Hw). simpl in *. lia.
  - pose proof (sum_list_with_insert (sending_for wt i) _ _ _ (Running pa) Hw).
    simpl in *. lia.
  - pose proof (sum_list_with_insert (sending_for wt i) _ _ _
                  (Sending pa (action_Execute (action pa) (ctx_Err (ctxs s) (ctx pa)))) Hw).
    simpl in *. case_decide; simpl in *; lia.
  - pose proof (sum_list_with_insert (sending_for wt i) _ _ _ Idle Hw).
    simpl in *. case_decide; simpl in *; lia.
Qed.

Lemma hist_chan_step s ev s' evs :
  wf s → Step s ev s' →
  (∀ i, received i evs ++ buffered i s = sent i evs) →
  ∀ i, received i (evs ++ [ev]) ++ buffered i s' = sent i (evs ++ [ev]).
Proof.
  intros Hwf H IH i. specialize (IH i). revert IH.
  unfold received, sent, buffered. rewrite !omap_app.
  destruct H; simpl; rewrite ?app_nil_r; try done.
  - (* line 33 *)
    destruct (decide (i0 = i)) as [->|]; [|by rewrite lookup_insert_ne].
    rewrite lookup_insert_eq. simpl. rewrite app_nil_r.
    destruct (chans s !! i) as [h|] eqn:Hh; simpl; [|by rewrite app_nil_r].
    destruct (wf_chan _ Hwf i h Hh) as (c' & ? & ? & _). naive_solver.
  - (* line 54 *)
    destruct (wf_frame _ Hwf i0 c fr Hi) as (Hres & _); [by rewrite Hpc|].
    rewrite Hres in *.
    case_decide as Hd; simplify_eq/=.
    + rewrite lookup_insert_eq, Hh. simpl. rewrite Hbuf, <- app_assoc. done.
    + rewrite lookup_insert_ne by done. by rewrite app_nil_r.
  - (* line 71 *)
    case_decide as Hd; simplify_eq/=.
    + rewrite lookup_insert_eq, Hh. simpl. intros <-. by rewrite app_assoc.
    + rewrite lookup_insert_ne by done. by rewrite app_nil_r.
Qed.


Lemma proj_other i evs ev :
  caller ev ≠ Some i →
  enqueued i (evs ++ [ev]) = enqueued i evs ∧
  received i (evs ++ [ev]) = received i evs ∧
  observed i (evs ++ [ev]) = observed i evs ∧
  (EvEnqDone i ∈ evs ++ [ev] ↔ EvEnqDone i ∈ evs).
Proof.
  intros Hne. unfold enqueued, received, observed. rewrite !omap_app.
  rewrite elem_of_app, list_elem_of_singleton.
  destruct ev; simpl in *; rewrite ?app_nil_r;
    try case_decide; simplify_eq/=; rewrite ?app_nil_r; naive_solver.
Qed.

Lemma call_hist_other i evs ev acts p :
  caller ev ≠ Some i →
  call_hist i evs acts p → call_hist i (evs ++ [ev]) acts p.
Proof.
  intros (He & Hr & Ho & Hd)%(proj_other i evs).
  destruct p; simpl; unfold recorded; rewrite ?He, ?Hr, ?Ho, ?Hd; done.
Qed.

Lemma first_error_snoc rs r :
  first_error (rs ++ [r]) = from_option Some r (first_error rs).
Proof.
  unfold first_error. rewrite omap_app.
  destruct (head (omap id rs)) as [e|] eqn:E; simpl.
  - by apply head_app_Some.
  - rewrite head_app_nil by done. by destruct r.
Qed.

Lemma enqueued_snoc i evs ev : enqueued i (evs ++ [ev]) = enqueued i evs ++ enqueued i [ev].
Proof. apply omap_app. Qed.
Lemma received_snoc i evs ev : received i (evs ++ [ev]) = received i evs ++ received i [ev].
Proof. apply omap_app. Qed.
Lemma observed_snoc i evs ev :
  observed i (evs ++ [ev])
  = match observed i evs with Some e => Some e | None => observed i [ev] end.
Proof.
  unfold observed. rewrite omap_app.
  destruct (head (omap _ evs)) as [e|] eqn:E.
  - by apply head_app_Some.
  - by apply head_app_nil.
Qed.

Lemma enqueued_single i ev :
  enqueued i [ev]
  = match ev with
    | EvEnqSend j pa => if decide (j = i) then [action pa] else []
    | _ => []
    end.
Proof. destruct ev; try done. unfold enqueued; simpl. by case_decide. Qed.
Lemma received_single i ev :
  received i [ev]
  = match ev with
    | EvRecv j r => if decide (j = i) then [r] else []
    | _ => []
    end.
Proof. destruct ev; try done. unfold received; simpl. by case_decide. Qed.
Lemma observed_single i ev :
  observed i [ev]
  = match ev with
    | EvEnqCtx j e => if decide (j = i) then Some e else None
    | _ => None
    end.
Proof. destruct ev; try done. unfold observed; simpl. by case_decide. Qed.

Ltac snoc_simpl :=
  unfold recorded;
  rewrite ?enqueued_snoc, ?received_snoc, ?observed_snoc;
  rewrite ?enqueued_single, ?received_single, ?observed_single;
  rewrite ?elem_of_app, ?list_elem_of_singleton;
  simpl; rewrite ?decide_True by done; simpl; rewrite ?app_nil_r.

Lemma hist_call_step s ev s' evs :
  Step s ev s' →
  (∀ i, match calls s !! i with
        | Some c => call_hist i evs (c_actions c) (c_pc c)
        | None => call_hist i evs [] Entry
        end) →
  ∀ i, match calls s' !! i with
       | Some c => call_hist i (evs ++ [ev]) (c_actions c) (c_pc c)
       | None => call_hist i (evs ++ [ev]) [] Entry
       end.
Proof.
  intros H IH i. specialize (IH i).
  destruct (decide (caller ev = Some i)) as [Hc|Hc].
  - (* an event of the call [i] *)
    destruct H; simplify_eq/=; rewrite Hi in IH;
      rewrite list_lookup_insert_eq by (by eapply lookup_lt_Some); simpl;
      rewrite Hpc in IH; simpl in IH.
    + destruct IH as (Hd & He & Hr & Ho).
      snoc_simpl. rewrite He, Hr, Ho, Hacts. naive_solver.
    + destruct IH as (Hd & He & Hr & Ho).
      snoc_simpl. rewrite He, Hr, Ho, Hacts. naive_solver.
    + destruct IH as (Hd & He & Hq' & Hfe & Hr & Ho).
      snoc_simpl. rewrite Hr. split; [|naive_solver].
      rewrite <- He. by apply prefix_app_r.
    + destruct IH as (Hd & He & Hq' & Hfe & Hr & Ho).
      snoc_simpl. rewrite Hr, Ho. simpl. split_and!; try done.
      * naive_solver.
      * rewrite <- He. by apply prefix_app_r.
    + destruct IH as (Hd & He & Hq' & Hfe & Hr & Ho).
      destruct rest as [|a' rest']; simpl; snoc_simpl; rewrite Hr, Ho; simpl.
      * rewrite length_app; simpl. split_and!; try done.
        -- naive_solver.
        -- by rewrite He.
        -- lia.
      * rewrite length_app, <- app_assoc; simpl. split_and!; try done.
        -- naive_solver.
        -- lia.
    + destruct IH as (Hd & Hp & He & Hq' & Hfe).
      apply collect1_spec in Hcol as (_ & _ & Hq2 & Hfe2 & _).
      snoc_simpl. rewrite first_error_snoc, length_app; simpl.
      split_and!; try done.
      * naive_solver.
      * destruct (observed i evs); done.
      * lia.
      * rewrite Hfe2, Hfe. unfold recorded.
        destruct (observed i evs); simpl; [done|].
        by destruct (first_error (received i evs)).
    + destruct IH as (Hd & Hp & He & Hq' & Hfe).
      snoc_simpl. split; [done|]. right. split_and!; try done.
      * naive_solver.
      * destruct (observed i evs); done.
      * lia.
      * rewrite Hfe. unfold recorded. by destruct (observed i evs).
  - (* an event of another goroutine *)
    assert (calls s' !! i = calls s !! i ∨
            calls s !! i = None ∧ ∃ c, calls s' !! i = Some c ∧ c_pc c = Entry)
      as [->|(Hn & c' & -> & Hpc')].
    { destruct H; simpl in *; auto; try (left; apply list_lookup_insert_ne; congruence).
      destruct (calls s !! i) as [c'|] eqn:E.
      - left. by apply lookup_app_l_Some.
      - destruct (decide (i = length (calls s))) as [->|].
        + right. split; [done|]. eexists.
          split; [by apply list_lookup_middle|done].
        + left. apply lookup_ge_None. apply lookup_ge_None in E.
          rewrite length_app; simpl. lia. }
    + destruct (calls s !! i); by apply call_hist_other.
    + rewrite Hn in IH. rewrite Hpc'. by apply call_hist_other.
Qed.


Lemma hist_step s ev s' evs :
  wf s → Step s ev s' → hist evs s → hist (evs ++ [ev]) s'.
Proof.
  intros Hwf H [Q R S C L]. split.
  - by eapply hist_queue_step.
  - by eapply hist_running_step.
  - by eapply hist_sending_step.
  - by eapply hist_chan_step.
  - by eapply hist_call_step.
Qed.

Lemma hist_run n d evs s : run (Pool n d) evs = Some s → hist evs s.
Proof.
  revert evs s. apply run_ind; [apply hist_Pool|].
  intros evs s ev s' Hrun IH Hst%step_Step.
  eapply hist_step; eauto using wf_run.
Qed.

(** ** Counting the results of a batch *)

Lemma sum_list_with_lookup {A} (f : A → nat) (l : list A) i x :
  l !! i = Some x → f x ≤ sum_list_with f l.
Proof. intros H. apply sum_list_with_in. by eapply list_elem_of_lookup_2. Qed.

Lemma sum_list_with_ones {A} (l : list A) : sum_list_with (λ _, 1) l = length l.
Proof. induction l; simpl; lia. Qed.

(** Every envelope enqueued for a batch is in flight or has had its result
    sent. *)
Lemma sent_inflight n d evs s i :
  run (Pool n d) evs = Some s →
  length (sent i evs) + inflight i s = length (enqueued i evs).
Proof.
  intros [Q R S _ _]%hist_run. unfold inflight.
  rewrite <- (Q i), length_app, length_fmap, (R i).
  pose proof (S i (λ _, 1)) as HS. rewrite !sum_list_with_ones in HS. lia.
Qed.

Lemma enqueued_le n d evs s i c :
  run (Pool n d) evs = Some s → calls s !! i = Some c →
  length (enqueued i evs) ≤ length (c_actions c).
Proof.
  intros [_ _ _ _ L]%hist_run Hi. specialize (L i). rewrite Hi in L.
  apply prefix_length. destruct (c_pc c); simpl in L.
  - destruct L as (_ & -> & _). apply prefix_nil.
  - destruct L as (_ & <- & _). by apply prefix_app_r.
  - by destruct L as (_ & ? & _).
  - by destruct L as (? & _).
Qed.

(** The send of line 71 finds room in the result channel. *)
Lemma send_ready n d evs s w pa r :
  run (Pool n d) evs = Some s →
  workers s !! w = Some (Sending pa r) →
  ∃ h, chans s !! response pa = Some h ∧ length (buf h) < cap h.
Proof.
  intros Hrun Hw.
  destruct (wf_worker _ (wf_run _ _ _ _ Hrun) w _ pa Hw eq_refl) as [[h Hh] _].
  destruct (wf_chan _ (wf_run _ _ _ _ Hrun) _ h Hh) as (c & Hc & _ & Hcap).
  exists h. split; [done|].
  pose proof (sent_inflight _ _ _ _ (response pa) Hrun) as Hcount.
  pose proof (enqueued_le _ _ _ _ _ _ Hrun Hc) as Hle.
  pose proof (hist_chan _ _ (hist_run _ _ _ _ Hrun) (response pa)) as Hch.
  apply (f_equal length) in Hch. rewrite length_app in Hch.
  unfold buffered in Hch. rewrite Hh in Hch. simpl in Hch.
  pose proof (sum_list_with_lookup (sending_for (λ _, 1) (response pa)) _ _ _ Hw) as Hs.
  simpl in Hs. rewrite decide_True in Hs by done.
  unfold inflight in Hcount. lia.
Qed.

(** C8 (as amended). The result channel of a batch has the capacity of the
    batch length; the results ever sent into it and the envelopes still in
    flight add up to the actions enqueued, which are at most the batch
    length; so a worker's send on the result channel always has room, also
    after the call has returned through the pool-closed path. *)
Theorem result_channel_never_blocks n d evs s i c :
  run (Pool n d) evs = Some s →
  calls s !! i = Some c →
  (∀ h, chans s !! i = Some h → cap h = length (c_actions c)) ∧
  length (sent i evs) + inflight i s = length (enqueued i evs) ∧
  length (enqueued i evs) ≤ length (c_actions c) ∧
  (∀ w pa r, workers s !! w = Some (Sending pa r) → response pa = i →
     ∃ s', step s (EvWSend w pa r) = Some s' ∧
           buffered i s' = buffered i s ++ [r]).
Proof.
  intros Hrun Hi. split_and!.
  - intros h Hh.
    destruct (wf_chan _ (wf_run _ _ _ _ Hrun) _ h Hh) as (c' & Hc' & _ & Hcap).
    congruence.
  - by eapply sent_inflight.
  - by eapply enqueued_le.
  - intros w pa r Hw <-.
    destruct (send_ready _ _ _ _ _ _ _ Hrun Hw) as (h & Hh & Hroom).
    eexists. split.
    + apply step_Step. by econstructor.
    + unfold buffered; simpl. by rewrite lookup_insert_eq, Hh.
Qed.

(** ** Execute on an empty batch *)

(** C5. [Execute] with no action returns nil in its first step: the context
    store, the result channels, [p.in], the workers and [done] are as
    before, so no context is derived, no channel made, nothing sent or
    received; the call takes no other step before or after. *)
Theorem Execute_empty s i c :
  calls s !! i = Some (Call c [] Entry) →
  ∃ s', step s (EvBegin i) = Some s' ∧
    pc_of s' i = Some (Returned None) ∧
    ctxs s' = ctxs s ∧ chans s' = chans s ∧ in_buf s' = in_buf s ∧
    workers s' = workers s ∧ done s' = done s ∧
    (∀ ev s'', caller ev = Some i → step s ev = Some s'' → ev = EvBegin i) ∧
    (∀ ev, caller ev = Some i → step s' ev = None).
Proof.
  intros Hi. eexists. split; [apply step_Step; by apply SBeginEmpty|].
  assert (Hlt : i < length (calls s)) by (by eapply lookup_lt_Some).
  unfold pc_of; simpl. rewrite list_lookup_insert_eq by done.
  split_and!; try done.
  - intros ev s'' Hc Hst%step_Step.
    destruct Hst; simplify_eq/=; try done; rewrite Hi in *; by simplify_eq/=.
  - intros ev Hc. destruct (step _ ev) as [s''|] eqn:Hst; [|done].
    apply step_Step in Hst.
    inversion Hst; simplify_eq/=;
      rewrite list_lookup_insert_eq in * by done; by simplify_eq/=.
Qed.

(** ** One worker *)

Lemma worker_hist_step s ev s' evs w :
  Step s ev s' →
  match workers s !! w with
  | Some x => worker_hist w evs x
  | None => worker_hist w evs Idle
  end →
  match workers s' !! w with
  | Some x => worker_hist w (evs ++ [ev]) x
  | None => worker_hist w (evs ++ [ev]) Idle
  end.
Proof.
  intros H.
  assert (Hproj : worker_of ev ≠ Some w →
    taken w (evs ++ [ev]) = taken w evs ∧
    returned w (evs ++ [ev]) = returned w evs ∧
    delivered w (evs ++ [ev]) = delivered w evs).
  { intros Hne. unfold taken, returned, delivered. rewrite !omap_app.
    destruct ev; simpl in *; rewrite ?app_nil_r; try done;
      rewrite decide_False by congruence; by rewrite ?app_nil_r. }
  destruct (decide (worker_of ev = Some w)) as [Hw'|Hne].
  - unfold worker_hist, taken, returned, delivered. rewrite !omap_app.
    destruct H; simplify_eq/=; rewrite Hw;
      rewrite list_lookup_insert_eq by (by eapply lookup_lt_Some);
      rewrite ?decide_True by done; simpl; rewrite ?app_nil_r; try done.
    + by intros [-> ->].
    + by intros [-> ->].
    + intros [-> ->]. by rewrite fmap_app.
  - destruct (Hproj Hne) as (Ht & Hr & Hd).
    assert (workers s' !! w = workers s !! w) as ->.
    { destruct H; simpl in *; try done; apply list_lookup_insert_ne; congruence. }
    unfold worker_hist. rewrite Ht, Hr, Hd. done.
Qed.

Lemma returned_step s ev s' evs w :
  Step s ev s' →
  Forall is_result (returned w evs) → Forall is_result (returned w (evs ++ [ev])).
Proof.
  intros H IH. unfold returned. rewrite omap_app. apply Forall_app. split; [done|].
  destruct H; simpl; try done. case_decide; [|done].
  constructor; [|done]. by eexists.
Qed.

Lemma worker_hist_run n d evs s w :
  run (Pool n d) evs = Some s →
  match workers s !! w with
  | Some x => worker_hist w evs x
  | None => worker_hist w evs Idle
  end ∧ Forall is_result (returned w evs).
Proof.
  revert evs s. apply run_ind.
  - split; [|done]. destruct (workers _ !! w) as [x|] eqn:E; [|done].
    rewrite Pool_workers in E. by apply lookup_replicate in E as [-> _].
  - intros evs s ev s' _ [IH1 IH2] Hst%step_Step.
    split; [by eapply worker_hist_step|by eapply returned_step].
Qed.

Lemma worker_next_ready n d evs s w x :
  run (Pool n d) evs = Some s →
  workers s !! w = Some x →
  worker_next s w x.
Proof.
  intros Hrun Hw.
  assert (Hlt : w < length (workers s)) by (by eapply lookup_lt_Some).
  destruct x as [|pa|pa r|]; try done.
  - split.
    + eexists. split; [apply step_Step; by econstructor|].
      simpl. by rewrite list_lookup_insert_eq.
    + intros ev s' Hev Hst%step_Step.
      destruct Hst; by simplify_eq/=.
  - split.
    + destruct (send_ready _ _ _ _ _ _ _ Hrun Hw) as (h & Hh' & Hroom).
      eexists. split; [apply step_Step; by econstructor|].
      simpl. rewrite list_lookup_insert_eq by done. split; [done|].
      unfold buffered; simpl. by rewrite lookup_insert_eq, Hh'.
    + intros ev s' Hev Hst%step_Step.
      destruct Hst; by simplify_eq/=.
Qed.

(** C7. An envelope a worker has taken from [p.in] is answered exactly
    once: the worker's sends are, in order, on the envelopes it took, each
    with what the envelope's action returned when executed with the
    envelope's context; only the envelope in hand is still unanswered, and
    the worker's next step for it (the return of the action, then the send)
    can always be taken and is the only one it can take. *)
Theorem work_one_result n d evs s w x :
  run (Pool n d) evs = Some s →
  workers s !! w = Some x →
  worker_hist w evs x ∧
  Forall is_result (returned w evs) ∧
  worker_next s w x.
Proof.
  intros Hrun Hw.
  destruct (worker_hist_run _ _ _ _ w Hrun) as [Hh Hres]. rewrite Hw in Hh.
  split_and!; [done..|]. by eapply worker_next_ready.
Qed.

Lemma run_three s a b c s1 s2 s3 :
  step s a = Some s1 → step s1 b = Some s2 → step s2 c = Some s3 →
  run s [a; b; c] = Some s3.
Proof.
  intros H1 H2 H3. unfold run; simpl. rewrite H1; simpl. by rewrite H2.
Qed.

(** C10. A worker takes the envelope at the head of [p.in] and runs its
    action whatever the state of the envelope's context: taking the
    envelope does not read the context store, and when the context is
    already cancelled the action is still started with it, returns, and its
    result is sent on the result channel. *)
Theorem work_ignores_cancellation n d evs s w pa q e :
  run (Pool n d) evs = Some s →
  workers s !! w = Some Idle →
  in_buf s = pa :: q →
  ctx_Err (ctxs s) (ctx pa) = Some e →
  let r := action_Execute (action pa) (Some e) in
  (∀ cs, step (with_ctxs cs s) (EvWRecv w pa)
         = Some (with_ctxs cs (set_worker w (Running pa) (with_in q s)))) ∧
  ∃ s', run s [EvWRecv w pa; EvWFinish w pa r; EvWSend w pa r] = Some s' ∧
        workers s' !! w = Some Idle ∧
        buffered (response pa) s' = buffered (response pa) s ++ [r].
Proof.
  intros Hrun Hw Hin He r.
  assert (Hlt : w < length (workers s)) by (by eapply lookup_lt_Some).
  split.
  { intros cs. apply step_Step. by apply (SWRecv (with_ctxs cs s)). }
  set (s1 := set_worker w (Running pa) (with_in q s)).
  assert (H1 : step s (EvWRecv w pa) = Some s1).
  { apply step_Step. by econstructor. }
  assert (Hrun1 : run (Pool n d) (evs ++ [EvWRecv w pa]) = Some s1).
  { by rewrite run_snoc, Hrun. }
  assert (Hw1 : workers s1 !! w = Some (Running pa)).
  { simpl. by rewrite list_lookup_insert_eq. }
  destruct (worker_next_ready _ _ _ _ _ _ Hrun1 Hw1) as ((s2 & H2 & Hw2) & _).
  assert (Hr : action_Execute (action pa) (ctx_Err (ctxs s1) (ctx pa)) = r).
  { unfold r. by rewrite <- He. }
  cbv zeta in H2, Hw2. rewrite Hr in H2, Hw2.
  assert (Hrun2 : run (Pool n d) ((evs ++ [EvWRecv w pa]) ++ [EvWFinish w pa r]) = Some s2).
  { by rewrite run_snoc, Hrun1. }
  destruct (worker_next_ready _ _ _ _ _ _ Hrun2 Hw2) as ((s3 & H3 & Hw3 & Hb) & _).
  exists s3. split_and!; [|done|].
  - by eapply run_three.
  - rewrite Hb. f_equal.
    apply step_Step in H2. by inversion H2.
Qed.

(** ** One call *)

Lemma step_other_call s ev s' i c :
  Step s ev s' → caller ev ≠ Some i →
  calls s !! i = Some c → calls s' !! i = Some c.
Proof.
  intros H Hne Hi. destruct H; simpl in *; try done.
  - by apply lookup_app_l_Some.
  - rewrite list_lookup_insert_ne; [done|congruence].
  - rewrite list_lookup_insert_ne; [done|congruence].
  - rewrite list_lookup_insert_ne; [done|congruence].
  - rewrite list_lookup_insert_ne; [done|congruence].
  - rewrite list_lookup_insert_ne; [done|congruence].
  - rewrite list_lookup_insert_ne; [done|congruence].
  - rewrite list_lookup_insert_ne; [done|congruence].
Qed.

Lemma proj_nil i evs :
  Forall (λ ev, caller ev ≠ Some i) evs →
  enqueued i evs = [] ∧ received i evs = [] ∧ observed i evs = None ∧
  EvEnqDone i ∉ evs.
Proof.
  induction evs as [|ev evs IH] using rev_ind.
  - intros _. split_and!; try done. apply not_elem_of_nil.
  - intros [Hevs Hev]%Forall_app. rewrite Forall_singleton in Hev.
    destruct (proj_other i evs ev Hev) as (-> & -> & -> & ->). auto.
Qed.

(** A call that has returned takes no further step. *)
Lemma returned_stable s i c r evs s' :
  calls s !! i = Some c → c_pc c = Returned r →
  run s evs = Some s' →
  calls s' !! i = Some c ∧ Forall (λ ev, caller ev ≠ Some i) evs.
Proof.
  intros Hi Hpc. revert evs s'. apply run_ind; [done|].
  intros evs s1 ev s2 _ [Hi1 Hall] Hst%step_Step.
  assert (caller ev ≠ Some i) as Hne.
  { intros Hc. destruct Hst; simplify_eq/=; congruence. }
  split; [by eapply step_other_call|].
  apply Forall_app. by split; [|apply Forall_singleton].
Qed.

(** The collection loop, from any of its iterations on: the call enqueues
    nothing more; it receives one result per iteration, [queued] in all;
    [err] keeps the error it holds, or else takes the first non-nil result;
    and the call returns [err]. *)
Lemma collect_phase s i c fr evs s' :
  calls s !! i = Some c → c_pc c = Collect fr →
  run s evs = Some s' →
  enqueued i evs = [] ∧ observed i evs = None ∧ (EvEnqDone i ∉ evs) ∧
  ∃ c', calls s' !! i = Some c' ∧ c_actions c' = c_actions c ∧
    match c_pc c' with
    | Collect fr' =>
        length (received i evs) + f_queued fr' = f_queued fr ∧
        f_err fr' = from_option Some (first_error (received i evs)) (f_err fr) ∧
        f_ctx fr' = f_ctx fr ∧ f_res fr' = f_res fr
    | Returned r =>
        length (received i evs) = f_queued fr ∧
        r = from_option Some (first_error (received i evs)) (f_err fr)
    | _ => False
    end.
Proof.
  intros Hi Hpc. revert evs s'. apply run_ind.
  - split_and!; try done; [apply not_elem_of_nil|].
    exists c. rewrite Hpc. simpl. split_and!; try done.
    by destruct (f_err fr).
  - intros evs s1 ev s2 _ (He & Ho & Hd & c1 & Hi1 & Hacts & IH) Hst%step_Step.
    destruct (decide (caller ev = Some i)) as [Hc|Hne].
    + destruct Hst; simplify_eq/=; rewrite Hpc0 in IH; try done.
      * (* line 54 *)
        apply collect1_spec in Hcol as (Hctx & Hres & Hq' & Herr & _).
        destruct IH as (Hlen & Hfe & Hfc & Hfr).
        snoc_simpl. rewrite He, Ho. split_and!; try done; [naive_solver|].
        eexists. rewrite list_lookup_insert_eq by (by eapply lookup_lt_Some).
        split; [done|]. simpl. rewrite first_error_snoc, length_app. simpl.
        split_and!; try congruence; [lia|].
        rewrite Herr, Hfe. destruct (f_err fr); simpl; [done|].
        by destruct (first_error (received i evs)).
      * (* line 62 *)
        destruct IH as (Hlen & Hfe & Hfc & Hfr).
        snoc_simpl. rewrite He, Ho. split_and!; try done; [naive_solver|].
        eexists. rewrite list_lookup_insert_eq by (by eapply lookup_lt_Some).
        split; [done|]. simpl. split_and!; try done. lia.
    + destruct (proj_other i evs ev Hne) as (-> & -> & -> & ->).
      split_and!; try done. exists c1. split; [|done].
      by eapply step_other_call.
Qed.

(** ** Execute: the pool is closed *)

Lemma pc_of_Some s i p :
  pc_of s i = Some p ↔ ∃ c, calls s !! i = Some c ∧ c_pc c = p.
Proof.
  unfold pc_of. destruct (calls s !! i) as [c|]; simpl; naive_solver.
Qed.

(** C3. When the enqueue [select] takes the [<-p.done] case, [done] is
    closed; the call cancels its derived context and returns
    [errors.New("pool is closed")] in that step, leaving [p.in] and the result
    channels as they are; it has received no result before and receives
    none after. *)
Theorem Execute_pool_closed n d evs s i s' :
  run (Pool n d) evs = Some s →
  step s (EvEnqDone i) = Some s' →
  done s = true ∧
  (∃ fr a rest, pc_of s i = Some (Enqueue fr a rest) ∧
                is_Some (ctx_Err (ctxs s') (f_ctx fr))) ∧
  pc_of s' i = Some (Returned (Some pool_is_closed)) ∧
  chans s' = chans s ∧ in_buf s' = in_buf s ∧ workers s' = workers s ∧
  received i evs = [] ∧
  (∀ evs' s'', run s' evs' = Some s'' →
     received i evs' = [] ∧
     pc_of s'' i = Some (Returned (Some pool_is_closed))).
Proof.
  intros Hrun Hst%step_Step.
  pose proof (wf_run _ _ _ _ Hrun) as Hwf.
  pose proof (hist_call _ _ (hist_run _ _ _ _ Hrun) i) as Hh.
  inversion Hst as [| | | | | |s0 i0 c fr a rest Hi Hpc Hclosed| | | | | | | |];
    subst.
  assert (Hlt : i < length (calls s)) by (by eapply lookup_lt_Some).
  rewrite Hi, Hpc in Hh. destruct Hh as (_ & _ & _ & _ & Hr & _).
  destruct (wf_frame _ Hwf i c fr Hi) as (_ & _ & x & Hx & _); [by rewrite Hpc|].
  split; [done|]. split.
  { exists fr, a, rest. split; [apply pc_of_Some; eauto|].
    simpl. apply cancel_done. by eexists. }
  split.
  { unfold pc_of; simpl. by rewrite list_lookup_insert_eq. }
  do 4 (split; [done|]).
  intros evs' s'' Hrun'.
  eapply (returned_stable _ i) in Hrun' as [Hi' Hall];
    [|by simpl; rewrite list_lookup_insert_eq|done].
  apply (proj_nil i) in Hall as (_ & -> & _). split; [done|].
  unfold pc_of. by rewrite Hi'.
Qed.

(** ** Execute returns nil *)

Lemma sum_list_with_0 {A} (f : A → nat) (l : list A) :
  sum_list_with f l = 0 ↔ Forall (λ x, f x = 0) l.
Proof.
  induction l as [|x l IH]; simpl.
  - split; [constructor|done].
  - rewrite Forall_cons, <- IH. lia.
Qed.

Lemma sending_for_0 wt i ws :
  sum_list_with (sending_for (λ _, 1) i) ws = 0 →
  sum_list_with (sending_for wt i) ws = 0.
Proof.
  rewrite !sum_list_with_0. intros H. eapply Forall_impl; [done|].
  intros [|pa|pa r|]; simpl; try done. by case_decide.
Qed.

Lemma non_nil_0 rs : sum_list_with non_nil rs = 0 ↔ Forall (λ r, r = None) rs.
Proof.
  rewrite sum_list_with_0. apply Forall_proper; [|done].
  intros [e|]; simpl; naive_solver.
Qed.

(** When a call has returned nil, every action of the batch was enqueued,
    started once, in the order of the batch, and has returned nil; the call
    took neither the [<-p.done] nor the [<-ctx.Done()] case. *)
Lemma returned_nil n d evs s i c :
  run (Pool n d) evs = Some s →
  calls s !! i = Some c → c_pc c = Returned None →
  (EvEnqDone i ∉ evs) ∧ observed i evs = None ∧
  enqueued i evs = c_actions c ∧
  started i evs = c_actions c ∧
  length (finished i evs) = length (c_actions c) ∧
  Forall (λ r, r = None) (finished i evs) ∧
  length (received i evs) = length (c_actions c).
Proof.
  intros Hrun Hi Hpc.
  pose proof (hist_run _ _ _ _ Hrun) as [Q R S C L].
  pose proof (sent_inflight _ _ _ _ i Hrun) as Hcount.
  specialize (L i). rewrite Hi, Hpc in L.
  destruct L as (_ & [(_ & ? & _)|(Hd & Hobs & Hlen & Hrec)]); [done|].
  unfold recorded in Hrec.
  destruct (observed i evs) as [e|] eqn:Ho; [done|]. simpl in Hrec.
  symmetry in Hrec. apply first_error_None in Hrec.
  specialize (Hobs eq_refl).
  pose proof (C i) as HC. pose proof (f_equal length HC) as HClen.
  rewrite length_app in HClen. rewrite Hobs in *.
  unfold inflight in Hcount.
  assert (buffered i s = []) as Hb by (apply nil_length_inv; lia).
  assert (queued_for i s = []) as Hq by (apply nil_length_inv; lia).
  rewrite Hb, app_nil_r in HC.
  pose proof (Q i) as HQ. rewrite Hq, Hobs in HQ. simpl in HQ.
  rewrite app_nil_r in HQ.
  pose proof (R i) as HR. rewrite HQ in HR.
  pose proof (S i (λ _, 1)) as HS1. rewrite !sum_list_with_ones in HS1.
  split_and!; try done; try lia.
  apply non_nil_0. rewrite (S i non_nil).
  rewrite sending_for_0 by lia.
  rewrite <- HC. apply non_nil_0 in Hrec. lia.
Qed.


(** What a step does to a context that exists: nothing, unless the step
    cancels it, its parent, or is a call cancelling its own derived context. *)
Lemma ctx_step_lookup s ev s' k x :
  Step s ev s' → ctxs s !! k = Some x →
  ctxs s' !! k = Some x ∨
  (∃ e, ev = EvCancelCtx k e ∧ parent x = None) ∨
  (∃ c e, ev = EvCancelCtx c e ∧ parent x = Some c) ∨
  (∃ j cj fr, caller ev = Some j ∧ calls s !! j = Some cj ∧
              frame_of (c_pc cj) = Some fr ∧
              (k = f_ctx fr ∨ parent x = Some (f_ctx fr))).
Proof.
  intros H Hk.
  assert (Hcancel : ∀ c e,
    cancel c e (ctxs s) !! k = Some x ∨ k = c ∨ parent x = Some c).
  { intros c e. destruct (cancel_lookup c e (ctxs s) k) as [->|(x0 & ? & _ & ? & _)];
      [auto|]. simplify_eq. naive_solver. }
  destruct H; simpl; auto.
  - left. by apply lookup_app_l_Some.
  - destruct (Hcancel c e) as [?|[->|?]]; [auto| |].
    + right. left. exists e. split; [done|]. congruence.
    + right. right. left. eauto.
  - left. by apply lookup_app_l_Some.
  - destruct (Hcancel (f_ctx fr) Canceled) as [?|Hor]; [auto|].
    do 3 right. exists i, c, fr. rewrite Hpc. auto.
  - apply collect1_spec in Hcol as (_ & _ & _ & _ & ->).
    case_decide; [|auto].
    destruct (Hcancel (f_ctx fr) Canceled) as [?|Hor]; [auto|].
    do 3 right. exists i, c, fr. rewrite Hpc. auto.
  - destruct (Hcancel (f_ctx fr) Canceled) as [?|Hor]; [auto|].
    do 3 right. exists i, c, fr. rewrite Hpc. auto.
Qed.

(** The caller's context of a call is not the derived context of any. *)
Lemma root_not_derived s i j ci cj fr :
  wf s → calls s !! i = Some ci → calls s !! j = Some cj →
  frame_of (c_pc cj) = Some fr → c_ctx ci ≠ f_ctx fr.
Proof.
  intros Hwf Hi Hj Hfr Heq.
  destruct (wf_root _ Hwf i ci Hi) as (x & Hx & Hp).
  destruct (wf_frame _ Hwf j cj fr Hj Hfr) as (_ & _ & y & Hy & Hq).
  congruence.
Qed.

(** An untouched derived context. *)
Lemma derived_step s ev s' i c fr :
  wf s → Step s ev s' →
  calls s !! i = Some c → frame_of (c_pc c) = Some fr →
  caller ev ≠ Some i → (∀ e, ev ≠ EvCancelCtx (c_ctx c) e) →
  ctx_Err (ctxs s') (f_ctx fr) = ctx_Err (ctxs s) (f_ctx fr).
Proof.
  intros Hwf H Hi Hfr Hne Hnc.
  destruct (wf_frame _ Hwf i c fr Hi Hfr) as (_ & _ & x & Hx & Hp).
  unfold ctx_Err. rewrite Hx.
  destruct (ctx_step_lookup _ _ _ _ _ H Hx)
    as [->|[(e & -> & ?)|[(c' & e & -> & ?)|(j & cj & fj & Hc & Hj & Hfj & Hor)]]];
    [done|congruence|naive_solver|].
  destruct Hor as [Heq|Hpar].
  - destruct (decide (i = j)) as [->|]; [congruence|].
    destruct (wf_distinct _ Hwf i j c cj fr fj); done.
  - destruct (root_not_derived s i j c cj fj); congruence.
Qed.


Lemma step_other_call_inv s ev s' i c' :
  Step s ev s' → caller ev ≠ Some i →
  calls s' !! i = Some c' → calls s !! i = Some c' ∨ c_pc c' = Entry.
Proof.
  intros H Hne Hi.
  destruct H; simpl in *; auto;
    try (left; rewrite list_lookup_insert_ne in Hi; [done|congruence]).
  apply lookup_app_Some in Hi as [?|[_ Hi]]; [auto|].
  apply list_lookup_singleton_Some in Hi as [_ <-]. auto.
Qed.

Lemma finished_snoc i evs ev :
  finished i (evs ++ [ev])
  = finished i evs ++ match ev with
                      | EvWFinish _ pa r =>
                          if decide (response pa = i) then [r] else []
                      | _ => []
                      end.
Proof.
  unfold finished. rewrite omap_app. f_equal.
  destruct ev; simpl; try done. by case_decide.
Qed.

(** Before a call begins, no action has been started or finished for it. *)
Lemma finished_Entry evs s i c :
  hist evs s → calls s !! i = Some c → c_pc c = Entry → finished i evs = [].
Proof.
  intros [Q R _ _ L] Hi Hpc. specialize (L i). rewrite Hi, Hpc in L.
  destruct L as (_ & He & _). specialize (Q i). rewrite He in Q.
  apply app_eq_nil in Q as [Q _]. specialize (R i). rewrite Q in R.
  apply nil_length_inv. simpl in R. lia.
Qed.

(** While the actions finished for a batch have all returned nil, the
    results in its channel are nil. *)
Lemma buffered_nil evs s i r b :
  hist evs s → Forall (λ r, r = None) (finished i evs) →
  buffered i s = r :: b → r = None.
Proof.
  intros [_ _ S C _] Hfin Hb.
  apply non_nil_0 in Hfin. specialize (S i non_nil).
  assert (Forall (λ r, r = None) (sent i evs)) as Hsent by (apply non_nil_0; lia).
  rewrite <- (C i), Hb in Hsent.
  apply Forall_app in Hsent as [_ Hsent]. by inversion Hsent.
Qed.

Lemma quiet_step s ev s' evs i c0 :
  wf s → hist evs s → Step s ev s' →
  ev ≠ EvClose → (∀ e, ev ≠ EvCancelCtx c0 e) →
  quiet i c0 evs s → quiet i c0 (evs ++ [ev]) s'.
Proof.
  intros Hwf Hhist Hst Hnc Hncc (Hdone & Hroot & Hcall).
  split; [|split].
  - destruct Hst; simpl; done.
  - intros x' Hx' Hp'.
    assert (Hcan : ∀ j cj fr, calls s !! j = Some cj →
              frame_of (c_pc cj) = Some fr →
              cancel (f_ctx fr) Canceled (ctxs s) !! c0 = Some x' → Err x' = None).
    { intros j cj fr Hj Hfr Hl.
      destruct (cancel_lookup (f_ctx fr) Canceled (ctxs s) c0)
        as [Heq|(x0 & Hx0 & _ & Hor & Heq)]; rewrite Heq in Hl.
      - eauto.
      - simplify_eq/=.
        destruct (wf_frame _ Hwf j cj fr Hj Hfr) as (_ & _ & y & Hy & Hq).
        destruct Hor as [->|?]; congruence. }
    destruct Hst; simpl in *; eauto.
    + apply lookup_app_Some in Hx' as [?|[_ Hx']]; [eauto|].
      by apply list_lookup_singleton_Some in Hx' as [_ <-].
    + destruct (cancel_lookup c e (ctxs s) c0)
        as [Heq|(x0 & Hx0 & _ & Hor & Heq)]; rewrite Heq in Hx'; [eauto|].
      simplify_eq/=. destruct Hor as [->|?]; [|congruence].
      by destruct (Hncc e).
    + apply lookup_app_Some in Hx' as [?|[_ Hx']]; [eauto|].
      by apply list_lookup_singleton_Some in Hx' as [_ <-].
    + by eapply (Hcan _ c fr); [|rewrite Hpc|].
    + apply collect1_spec in Hcol as (_ & _ & _ & _ & ->).
      case_decide; [|eauto]. by eapply (Hcan _ c fr); [|rewrite Hpc|].
    + by eapply (Hcan _ c fr); [|rewrite Hpc|].
  - intros c' Hi' Hctx Hact.
    destruct (decide (caller ev = Some i)) as [Hc|Hne].
    + (* a step of the call *)
      destruct Hst; simplify_eq/=;
        rewrite list_lookup_insert_eq in Hi' by (by eapply lookup_lt_Some);
        simplify_eq/=; try done;
        specialize (Hcall c Hi eq_refl Hact); rewrite Hpc in Hcall.
      * (* lines 30-36 *)
        destruct (wf_root _ Hwf i c Hi) as (x & Hx & Hp).
        split_and!; try done.
        -- unfold ctx_Err, WithCancel. rewrite list_lookup_middle by done.
           simpl. unfold ctx_Err. rewrite Hx. simpl. eauto.
        -- rewrite finished_snoc, app_nil_r.
           by rewrite (finished_Entry evs s i c).
      * congruence.
      * destruct Hcall. congruence.
      * destruct Hcall as (? & ? & ?).
        by destruct rest; simpl; rewrite finished_snoc, app_nil_r.
      * destruct Hcall as (Hce & Hfe & Hfin).
        destruct (wf_frame _ Hwf i c fr Hi) as (Hres & _); [by rewrite Hpc|].
        assert (r = None) as ->.
        { eapply buffered_nil; [done..|]. unfold buffered.
          rewrite <- Hres, Hh. done. }
        apply collect1_spec in Hcol as (Hc1 & _ & _ & Hf1 & ->).
        rewrite decide_False by naive_solver.
        rewrite Hc1, Hf1, Hfe, finished_snoc, app_nil_r. done.
      * by destruct Hcall as (_ & -> & _).
    + (* a step of another goroutine *)
      destruct (step_other_call_inv _ _ _ _ _ Hst Hne Hi') as [Hi|Hpc'];
        [|by rewrite Hpc'].
      specialize (Hcall c' Hi Hctx Hact).
      destruct (frame_of (c_pc c')) as [fr|] eqn:Hfr;
        [|by destruct (c_pc c')].
      assert (ctx_Err (ctxs s') (f_ctx fr) = None
              ∧ f_err fr = None ∧ Forall (λ r, r = None) (finished i (evs ++ [ev])))
        as Hgoal; [|by destruct (c_pc c'); simplify_eq/=].
      assert (ctx_Err (ctxs s) (f_ctx fr) = None
              ∧ f_err fr = None ∧ Forall (λ r, r = None) (finished i evs))
        as (Hce & Hfe & Hfin) by (by destruct (c_pc c'); simplify_eq/=).
      split_and!; [|done|].
      * rewrite <- Hce. eapply derived_step; eauto. by rewrite Hctx.
      * rewrite finished_snoc. apply Forall_app. split; [done|].
        destruct Hst; simpl; try done. case_decide as Hr; [|done].
        constructor; [|done].
        destruct (wf_worker _ Hwf w _ pa Hw eq_refl) as [_ Hok].
        rewrite Hr in Hok. destruct (Hok c' Hi) as [Hin Hfc].
        rewrite (Hfc fr Hfr), Hce. by apply Hact.
Qed.

Lemma quiet_run n evs s i c0 :
  run (Pool n false) evs = Some s →
  EvClose ∉ evs → (∀ e, EvCancelCtx c0 e ∉ evs) →
  quiet i c0 evs s.
Proof.
  revert evs s. apply (run_ind (λ evs s, EvClose ∉ evs →
    (∀ e, EvCancelCtx c0 e ∉ evs) → quiet i c0 evs s)).
  - intros _ _. split_and!; done.
  - intros evs s ev s' Hrun IH Hst%step_Step Hnc Hncc.
    rewrite not_elem_of_app in Hnc. destruct Hnc as [Hnc Hev].
    apply not_elem_of_cons in Hev as [Hev _].
    eapply quiet_step; eauto using wf_run, hist_run.
    + intros e ->. apply (Hncc e). apply elem_of_app. right. by left.
    + apply IH; [done|]. intros e He. apply (Hncc e), elem_of_app. by left.
Qed.

(** ** Termination and progress *)

Ltac weigh :=
  repeat match goal with
    | H : ?l !! ?i = Some ?x |- context [sum_list_with ?f (<[?i:=?y]> ?l)] =>
        lazymatch goal with
        | _ : sum_list_with f (<[i:=y]> l) + _ = _ |- _ => fail
        | _ => pose proof (sum_list_with_insert f l i x y H)
        end
    end;
  unfold call_weight, worker_weight in *; simpl in *;
  repeat match goal with
    | H : c_pc _ = _ |- _ => rewrite H in *; clear H
    | H : c_actions _ = _ |- _ => rewrite H in *; clear H
    | H : in_buf _ = _ |- _ => rewrite H in *; clear H
    end;
  rewrite ?length_app in *; simpl in *.

Lemma weight_step s ev s' :
  Step s ev s' → internal ev = true → weight s' < weight s.
Proof.
  intros H Hint. unfold weight.
  destruct H; simplify_eq/=; weigh; try lia.
  - destruct rest; simpl in *; lia.
  - apply collect1_spec in Hcol as (_ & _ & Hq' & _). lia.
Qed.

Lemma internal_step s ev s' :
  Step s ev s' → internal ev = true →
  done s' = done s ∧ in_cap s' = in_cap s.
Proof. intros H Hint. by destruct H. Qed.

(** A schedule of the program's own steps is no longer than the weight of
    the state it starts from. *)
Lemma internal_bounded s evs s' :
  run s evs = Some s' → Forall (λ ev, internal ev = true) evs →
  length evs + weight s' ≤ weight s.
Proof.
  revert evs s'.
  apply (run_ind (λ evs s', Forall (λ ev, internal ev = true) evs →
                            length evs + weight s' ≤ weight s)); [simpl; lia|].
  intros evs s1 ev s2 _ IH Hst%step_Step [Hall Hev]%Forall_app.
  rewrite Forall_singleton in Hev.
  pose proof (weight_step _ _ _ Hst Hev). specialize (IH Hall).
  rewrite length_app; simpl. lia.
Qed.

Lemma sum_list_with_pos {A} (f : A → nat) (l : list A) :
  0 < sum_list_with f l → ∃ i x, l !! i = Some x ∧ 0 < f x.
Proof.
  induction l as [|x l IH]; simpl; [lia|]. intros H.
  destruct (decide (0 < f x)).
  - by exists 0, x.
  - destruct IH as (i & y & ? & ?); [lia|]. by exists (S i), y.
Qed.

(** With [done] open, a worker can take a step whenever an envelope is in
    [p.in] or in a worker's hands. *)
Lemma worker_move n d evs s :
  run (Pool n d) evs = Some s →
  done s = false → 0 < length (workers s) →
  in_buf s ≠ [] ∨ (∃ w x pa, workers s !! w = Some x ∧ envelope x = Some pa) →
  ∃ ev s', internal ev = true ∧ step s ev = Some s'.
Proof.
  intros Hrun Hdone Hlen Hor.
  assert (Hbusy : ∀ w x pa, workers s !! w = Some x → envelope x = Some pa →
            ∃ ev s', internal ev = true ∧ step s ev = Some s').
  { intros w [|pa'|pa' r|] pa Hw [= <-].
    - eexists _, _. split; [|apply step_Step; by eapply SWFinish]. done.
    - destruct (send_ready _ _ _ _ _ _ _ Hrun Hw) as (h & Hh & Hroom).
      eexists _, _. split; [|apply step_Step; by eapply SWSend]. done. }
  destruct Hor as [Hin|(w & x & pa & Hw & Hx)]; [|eauto].
  destruct (in_buf s) as [|pa q] eqn:Hq; [done|].
  destruct (workers s !! 0) as [x|] eqn:Hw.
  2:{ apply lookup_ge_None in Hw. lia. }
  destruct x as [|pa'|pa' r|].
  - eexists _, _. split; [|apply step_Step; by eapply SWRecv]. done.
  - by eapply (Hbusy 0).
  - by eapply (Hbusy 0).
  - pose proof (wf_exited _ (wf_run _ _ _ _ Hrun) 0 Hw). congruence.
Qed.

Lemma all_returned_dec s :
  all_returned s ∨ ∃ i c, calls s !! i = Some c ∧ ∀ r, c_pc c ≠ Returned r.
Proof.
  unfold all_returned. induction (calls s) as [|c l IH].
  - left. by intros i c.
  - destruct IH as [IH|(i & c' & Hi & Hc')].
    + destruct (c_pc c) as [| | |r] eqn:E.
      4:{ left. intros [|i] c' Hi; simplify_eq/=; eauto. }
      all: right; exists 0, c; split; [done|congruence].
    + right. by exists (S i), c'.
Qed.

(** With [done] open and at least one worker, the program can take a step
    as long as some call has not returned. *)
Lemma progress n d evs s :
  run (Pool n d) evs = Some s →
  done s = false → 0 < in_cap s →
  ¬ all_returned s →
  ∃ ev s', internal ev = true ∧ step s ev = Some s'.
Proof.
  intros Hrun Hdone Hcap Hnot.
  pose proof (wf_run _ _ _ _ Hrun) as Hwf.
  pose proof (hist_run _ _ _ _ Hrun) as Hhist.
  assert (Hlen : 0 < length (workers s)).
  { pose proof (run_frame _ _ _ Hrun) as [-> Hc]. rewrite Hc in Hcap.
    rewrite Pool_workers, length_replicate. by unfold Pool in Hcap. }
  assert (∃ i c, calls s !! i = Some c ∧ ∀ r, c_pc c ≠ Returned r)
    as (i & c & Hi & Hpc).
  { by destruct (all_returned_dec s). }
  destruct (c_pc c) as [|fr a rest|fr|r] eqn:E; [| | |by destruct (Hpc r)].
  - (* at entry *)
    destruct (c_actions c) as [|a rest] eqn:Ea.
    + eexists _, _. split; [|apply step_Step; by eapply SBeginEmpty]. done.
    + eexists _, _. split; [|apply step_Step; by eapply SBegin]. done.
  - (* in the select of line 41 *)
    destruct (decide (length (in_buf s) < in_cap s)).
    + eexists _, _. split; [|apply step_Step; by eapply SEnqSend]. done.
    + eapply worker_move; eauto. left. intros Hnil. rewrite Hnil in *.
      simpl in *. lia.
  - (* in the loop of line 53 *)
    destruct (decide (f_queued fr = 0)).
    { eexists _, _. split; [|apply step_Step; by eapply SReturn]. done. }
    destruct (wf_frame _ Hwf i c fr Hi) as (Hres & [h Hh] & _); [by rewrite E|].
    destruct (buf h) as [|r b] eqn:Hb.
    2:{ destruct (collect1 fr r (ctxs s)) as [fr' cs] eqn:Hcol.
        eexists _, _. split; [|apply step_Step; eapply SRecv; eauto]; [done|lia|].
        by rewrite Hres. }
    pose proof (hist_call _ _ Hhist i) as L. rewrite Hi, E in L.
    destruct L as (_ & _ & _ & Hlen' & _).
    pose proof (f_equal length (hist_chan _ _ Hhist i)) as HC.
    rewrite length_app in HC. unfold buffered in HC.
    rewrite Hh in HC. simpl in HC. rewrite Hb in HC.
    pose proof (sent_inflight _ _ _ _ i Hrun) as Hcount.
    unfold inflight in Hcount. simpl in HC.
    eapply worker_move; eauto.
    destruct (queued_for i s) as [|pa q] eqn:Hq.
    2:{ left. intros Hnil. unfold queued_for in Hq. by rewrite Hnil in Hq. }
    right. simpl in Hcount.
    destruct (decide (0 < sum_list_with (running_for i) (workers s))) as [Hr|Hr].
    + apply sum_list_with_pos in Hr as (w & x & Hw & Hx).
      destruct x as [|pa| |]; simpl in Hx; try lia. by exists w, (Running pa), pa.
    + destruct (sum_list_with_pos (sending_for (λ _, 1) i) (workers s))
        as (w & x & Hw & Hx); [lia|].
      destruct x as [| |pa r|]; simpl in Hx; try lia.
      by exists w, (Sending pa r), pa.
Qed.

(** With [done] open and at least one worker, the calls made so far can all
    be brought to their return by steps of the program alone. *)
Lemma completion n d evs s :
  run (Pool n d) evs = Some s →
  done s = false → 0 < in_cap s →
  ∃ evs' s', Forall (λ ev, internal ev = true) evs' ∧
             run s evs' = Some s' ∧ all_returned s'.
Proof.
  remember (weight s) as k eqn:Hk. revert evs s Hk.
  induction k as [k IH] using lt_wf_ind. intros evs s -> Hrun Hdone Hcap.
  destruct (all_returned_dec s) as [Hall|(i & c & Hi & Hpc)].
  { exists [], s. by split_and!. }
  destruct (progress _ _ _ _ Hrun Hdone Hcap) as (ev & s1 & Hint & Hst).
  { intros Hall. destruct (Hall i c Hi) as [r Hr]. by destruct (Hpc r). }
  pose proof Hst as HSt%step_Step.
  destruct (internal_step _ _ _ HSt Hint) as [Hd1 Hc1].
  destruct (IH (weight s1) (weight_step _ _ _ HSt Hint) (evs ++ [ev]) s1)
    as (evs' & s' & Hall & Hrun' & Hret); try done.
  - by rewrite run_snoc, Hrun.
  - congruence.
  - lia.
  - exists (ev :: evs'), s'. split_and!; [by constructor| |done].
    by rewrite run_cons, Hst.
Qed.

Lemma call_args_step s ev s' i c :
  Step s ev s' → calls s !! i = Some c →
  ∃ c', calls s' !! i = Some c' ∧ c_ctx c' = c_ctx c ∧ c_actions c' = c_actions c.
Proof.
  intros H Hi.
  destruct (decide (caller ev = Some i)) as [Hc|Hne].
  - destruct H; simplify_eq/=; eexists;
      (split; [apply list_lookup_insert_eq; by eapply lookup_lt_Some|done]).
  - exists c. split; [|done]. by eapply step_other_call.
Qed.

Lemma call_args_run s evs s' i c :
  run s evs = Some s' → calls s !! i = Some c →
  ∃ c', calls s' !! i = Some c' ∧ c_ctx c' = c_ctx c ∧ c_actions c' = c_actions c.
Proof.
  intros Hrun Hi. revert evs s' Hrun. apply run_ind; [by exists c|].
  intros evs s1 ev s2 _ (c1 & Hi1 & <- & <-) Hst%step_Step.
  by eapply call_args_step.
Qed.

Lemma internal_not_env evs :
  Forall (λ ev, internal ev = true) evs →
  (EvClose ∉ evs) ∧ ∀ c e, EvCancelCtx c e ∉ evs.
Proof.
  intros Hall. split; [|intros c e]; intros Hin;
    by eapply Forall_forall in Hall; [|done].
Qed.

(** C1 (as amended). [Execute] returns nil only if every action of the
    batch was enqueued and started once, in order, and every one of them
    returned nil, the call having taken neither the [<-p.done] nor the
    [<-ctx.Done()] case.  Conversely, when [done] is never closed, the
    caller's context never cancelled and every action of the batch returns
    nil under a live context: if the call returns, it returns nil, with
    every action executed once; with at least one worker the program can
    always bring the call to that return, and no schedule of the program's
    own steps goes on for ever. *)
Theorem Execute_nil n d evs s i c :
  run (Pool n d) evs = Some s →
  calls s !! i = Some c →
  (c_pc c = Returned None →
     (EvEnqDone i ∉ evs) ∧ observed i evs = None ∧
     enqueued i evs = c_actions c ∧ started i evs = c_actions c ∧
     length (finished i evs) = length (c_actions c) ∧
     Forall (λ r, r = None) (finished i evs)) ∧
  (d = false → EvClose ∉ evs → (∀ e, EvCancelCtx (c_ctx c) e ∉ evs) →
   (∀ a, a ∈ c_actions c → action_Execute a None = None) →
     (∀ r, c_pc c = Returned r → r = None ∧ started i evs = c_actions c) ∧
     ((0 < effective n)%Z →
        ∃ evs' s', Forall (λ ev, internal ev = true) evs' ∧
          run s evs' = Some s' ∧ pc_of s' i = Some (Returned None) ∧
          started i (evs ++ evs') = c_actions c) ∧
     (∀ evs' s', Forall (λ ev, internal ev = true) evs' →
        run s evs' = Some s' → length evs' ≤ weight s)).
Proof.
  intros Hrun Hi. split.
  { intros Hpc.
    destruct (returned_nil _ _ _ _ _ _ Hrun Hi Hpc) as (?&?&?&?&?&?&?). done. }
  intros -> Hnc Hncc Hact.
  assert (Hret : ∀ evs1 s1 c1 r, run (Pool n false) evs1 = Some s1 →
    EvClose ∉ evs1 → (∀ e, EvCancelCtx (c_ctx c) e ∉ evs1) →
    calls s1 !! i = Some c1 → c_ctx c1 = c_ctx c → c_actions c1 = c_actions c →
    c_pc c1 = Returned r → r = None ∧ started i evs1 = c_actions c).
  { intros evs1 s1 c1 r Hrun1 Hnc1 Hncc1 Hi1 Hctx1 Hacts1 Hpc1.
    destruct (quiet_run _ _ _ i (c_ctx c) Hrun1 Hnc1 Hncc1) as (_ & _ & Hq).
    specialize (Hq c1 Hi1 Hctx1). rewrite Hacts1, Hpc1 in Hq.
    specialize (Hq Hact). subst r. split; [done|].
    destruct (returned_nil _ _ _ _ _ _ Hrun1 Hi1 Hpc1) as (_&_&_&?&_).
    congruence. }
  split; [|split].
  - intros r Hpc. by eapply (Hret evs s c).
  - intros Hpos.
    destruct (completion _ _ _ _ Hrun) as (evs' & s' & Hall & Hrun' & Hdone).
    { destruct (quiet_run _ _ _ i (c_ctx c) Hrun Hnc Hncc) as (? & _). done. }
    { pose proof (run_frame _ _ _ Hrun) as [_ ->]. unfold Pool; simpl. lia. }
    exists evs', s'. do 2 (split; [done|]).
    destruct (call_args_run _ _ _ _ _ Hrun' Hi) as (c' & Hi' & Hctx' & Hacts').
    destruct (Hdone i c' Hi') as [r Hpc'].
    destruct (internal_not_env _ Hall) as [Hnc' Hncc'].
    destruct (Hret (evs ++ evs') s' c' r) as [-> Hst]; try done.
    + by rewrite run_app, Hrun.
    + rewrite not_elem_of_app. done.
    + intros e. rewrite not_elem_of_app. split; [apply Hncc|apply Hncc'].
    + split; [|done]. apply pc_of_Some. eauto.
  - intros evs' s' Hall Hrun'.
    pose proof (internal_bounded _ _ _ Hrun' Hall). lia.
Qed.

(** ** Execute: collection, and the context done *)

(** With [done] open and at least one worker, any call can be brought to
    its return by steps of the program alone. *)
Lemma can_return n d evs s i c :
  run (Pool n d) evs = Some s → calls s !! i = Some c →
  done s = false → (0 < effective n)%Z →
  ∃ evs' s' r, Forall (λ ev, internal ev = true) evs' ∧
    run s evs' = Some s' ∧ pc_of s' i = Some (Returned r).
Proof.
  intros Hrun Hi Hdone Hpos.
  destruct (completion _ _ _ _ Hrun Hdone) as (evs' & s' & Hall & Hrun' & Hret).
  { pose proof (run_frame _ _ _ Hrun) as [_ ->]. unfold Pool; simpl. lia. }
  destruct (call_args_run _ _ _ _ _ Hrun' Hi) as (c' & Hi' & _).
  destruct (Hret i c' Hi') as [r Hr].
  exists evs', s', r. do 2 (split; [done|]). apply pc_of_Some. eauto.
Qed.

(** C2. From the collection loop on: a receive takes the oldest result of
    the call's result channel and lowers [queued]; the first non-nil result
    received while [err] is nil becomes [err] and cancels the derived
    context, any other result leaves [err] and the contexts as they are; the
    call returns only when [queued] is zero, and returns [err].  When the
    call returns, it has received as many results as it has enqueued
    actions, and what it returns is the recorded error: the context error of
    the enqueue loop if there is one, else the first non-nil result.  With
    [done] open and at least one worker, the program can always bring the
    call to that return. *)
Theorem Execute_collect n d evs s i fr :
  run (Pool n d) evs = Some s →
  pc_of s i = Some (Collect fr) →
  f_res fr = i ∧
  length (received i evs) + f_queued fr = length (enqueued i evs) ∧
  f_err fr = recorded i evs ∧
  (∀ r s', step s (EvRecv i r) = Some s' →
     0 < f_queued fr ∧
     buffered i s = r :: buffered i s' ∧
     pc_of s' i = Some (Collect (Frame (f_ctx fr) i
                                  (from_option Some r (f_err fr))
                                  (f_queued fr - 1))) ∧
     (if decide (f_err fr = None ∧ r ≠ None)
      then is_Some (ctx_Err (ctxs s') (f_ctx fr))
      else ctxs s' = ctxs s)) ∧
  (∀ r s', step s (EvReturn i r) = Some s' →
     f_queued fr = 0 ∧ r = f_err fr ∧ pc_of s' i = Some (Returned r)) ∧
  (∀ evs' s' r, run s evs' = Some s' → pc_of s' i = Some (Returned r) →
     enqueued i evs' = [] ∧
     length (received i (evs ++ evs')) = length (enqueued i (evs ++ evs')) ∧
     r = recorded i (evs ++ evs')) ∧
  (done s = false → (0 < effective n)%Z →
     ∃ evs' s' r, Forall (λ ev, internal ev = true) evs' ∧
       run s evs' = Some s' ∧ pc_of s' i = Some (Returned r)).
Proof.
  intros Hrun (c & Hi & Hpc)%pc_of_Some.
  pose proof (wf_run _ _ _ _ Hrun) as Hwf.
  pose proof (hist_call _ _ (hist_run _ _ _ _ Hrun) i) as Hh.
  assert (Hlt : i < length (calls s)) by (by eapply lookup_lt_Some).
  rewrite Hi, Hpc in Hh. destruct Hh as (Hd & Hpre & Hobs & Hlen & Herr).
  assert (Hfr : f_res fr = i ∧ is_Some (ctxs s !! f_ctx fr)).
  { destruct (wf_frame _ Hwf i c fr Hi) as (Hres & _ & x & Hx & _);
      [by rewrite Hpc|eauto]. }
  split; [apply Hfr|]. do 2 (split; [done|]). split; [|split; [|split]].
  - intros r s' Hst%step_Step.
    inversion Hst as [| | | | | | | | |s0 i0 c0 fr0 h r0 b fr' cs Hi0 Hpc0 Hq Hh Hbuf Hcol| | | | |];
      subst.
    assert (c0 = c) as -> by congruence. assert (fr0 = fr) as -> by congruence.
    destruct Hfr as [Hres Hx]. rewrite Hres in *.
    apply collect1_spec in Hcol as (Hctx' & Hres' & Hq' & Herr' & ->).
    split; [done|]. split; [|split].
    + unfold buffered; simpl. by rewrite lookup_insert_eq, Hh.
    + unfold pc_of; simpl. rewrite list_lookup_insert_eq by done. simpl.
      do 2 f_equal. destruct fr'; simpl in *. congruence.
    + case_decide; [|done]. simpl. by apply cancel_done.
  - intros r s' Hst%step_Step.
    inversion Hst as [| | | | | | | | | |s0 i0 c0 fr0 Hi0 Hpc0 Hq| | | |];
      subst.
    assert (c0 = c) as -> by congruence. assert (fr0 = fr) as -> by congruence.
    split_and!; try done.
    unfold pc_of; simpl. by rewrite list_lookup_insert_eq.
  - intros evs' s' r Hrun' (c' & Hi' & Hpc')%pc_of_Some.
    destruct (collect_phase _ _ _ _ _ _ Hi Hpc Hrun')
      as (He & Ho & _ & c1 & Hi1 & _ & Hc1).
    simplify_eq. rewrite Hpc' in Hc1. destruct Hc1 as [Hlen' ->].
    split; [done|]. unfold recorded, received, enqueued, observed.
    rewrite !omap_app.
    fold (received i evs) (received i evs') (enqueued i evs) (enqueued i evs').
    fold (observed i evs). rewrite He, app_nil_r, !length_app.
    split; [lia|]. rewrite Herr. unfold recorded.
    destruct (observed i evs) as [e|] eqn:Eo.
    + unfold observed in Eo. by rewrite (head_app_Some _ _ e).
    + rewrite head_app_nil by done. fold (observed i evs'). rewrite Ho. simpl.
      unfold first_error. rewrite omap_app.
      destruct (head (omap id (received i evs))) as [e|] eqn:E; simpl.
      * by rewrite (head_app_Some _ _ e).
      * by rewrite head_app_nil.
  - intros Hdone Hpos. by eapply can_return.
Qed.

(** C4 (as amended). When the enqueue [select] takes the [<-ctx.Done()] case,
    the derived context is done and [e] is its [Err()]; the call enqueues no
    further action, keeps [e] in [err] whatever results arrive, receives one
    result for each action it had enqueued and no more, and returns [e].
    With [done] open and at least one worker, the program can always bring
    the call to that return.  When the caller's context is already done at
    the call, the derived context is done from the start, and the call can
    return that error at once with nothing enqueued. *)
Theorem Execute_context_done n d evs s i :
  run (Pool n d) evs = Some s →
  (∀ e s1, step s (EvEnqCtx i e) = Some s1 →
     ∃ fr a rest,
       pc_of s i = Some (Enqueue fr a rest) ∧
       ctx_Err (ctxs s) (f_ctx fr) = Some e ∧
       f_queued fr = length (enqueued i evs) ∧ received i evs = [] ∧
       in_buf s1 = in_buf s ∧
       pc_of s1 i = Some (Collect (Frame (f_ctx fr) (f_res fr) (Some e) (f_queued fr))) ∧
       (∀ evs' s', run s1 evs' = Some s' →
          enqueued i evs' = [] ∧
          match pc_of s' i with
          | Some (Collect fr') =>
              f_err fr' = Some e ∧
              length (received i evs') + f_queued fr' = f_queued fr
          | Some (Returned r) =>
              r = Some e ∧ length (received i evs') = f_queued fr
          | _ => False
          end) ∧
       (done s = false → (0 < effective n)%Z →
          ∃ evs' s', Forall (λ ev, internal ev = true) evs' ∧
            run s1 evs' = Some s' ∧ pc_of s' i = Some (Returned (Some e)))) ∧
  (∀ c a rest e,
     calls s !! i = Some (Call c (a :: rest) Entry) →
     ctx_Err (ctxs s) c = Some e →
     ∃ s', run s [EvBegin i; EvEnqCtx i e; EvReturn i (Some e)] = Some s' ∧
           pc_of s' i = Some (Returned (Some e)) ∧
           in_buf s' = in_buf s ∧ workers s' = workers s).
Proof.
  intros Hrun. split.
  - intros e s1 Hst. pose proof Hst as HSt%step_Step.
    pose proof (hist_call _ _ (hist_run _ _ _ _ Hrun) i) as Hh.
    inversion HSt as [| | | | | | |s0 i0 c fr a rest e0 Hi Hpc Herr| | | | | | |];
      subst.
    assert (Hlt : i < length (calls s)) by (by eapply lookup_lt_Some).
    rewrite Hi, Hpc in Hh. destruct Hh as (_ & _ & Hq & _ & Hr & _).
    set (c1 := Call (c_ctx c) (c_actions c)
                 (Collect (Frame (f_ctx fr) (f_res fr) (Some e) (f_queued fr)))).
    assert (Hi1 : calls (set_pc i c (c_pc c1) s) !! i = Some c1).
    { simpl. by rewrite list_lookup_insert_eq. }
    assert (Hcont : ∀ evs' s', run (set_pc i c (c_pc c1) s) evs' = Some s' →
      enqueued i evs' = [] ∧
      match pc_of s' i with
      | Some (Collect fr') =>
          f_err fr' = Some e ∧
          length (received i evs') + f_queued fr' = f_queued fr
      | Some (Returned r) =>
          r = Some e ∧ length (received i evs') = f_queued fr
      | _ => False
      end).
    { intros evs' s' Hrun'.
      destruct (collect_phase _ i c1 _ _ _ Hi1 eq_refl Hrun')
        as (He & _ & _ & c' & Hi' & _ & Hc').
      split; [done|]. unfold pc_of. rewrite Hi'. simpl in *.
      destruct (c_pc c'); try done; naive_solver. }
    exists fr, a, rest. split; [apply pc_of_Some; eauto|].
    do 4 (split; [done|]). split; [|split; [done|]].
    { apply pc_of_Some. by exists c1. }
    intros Hdone Hpos.
    destruct (can_return n d (evs ++ [EvEnqCtx i e])
                (set_pc i c (c_pc c1) s) i c1)
      as (evs' & s' & r & Hall & Hrun' & Hret); try done.
    { by rewrite run_snoc, Hrun. }
    exists evs', s'. do 2 (split; [done|]).
    destruct (Hcont evs' s' Hrun') as [_ Hm]. rewrite Hret in Hm.
    by destruct Hm as [-> _].
  - intros c a rest e Hi Hc.
    assert (Hlt : i < length (calls s)) by (by eapply lookup_lt_Some).
    eexists. split.
    + eapply run_three; apply step_Step.
      * by eapply (SBegin _ _ _ a rest).
      * eapply SEnqCtx; simpl.
        -- by rewrite list_lookup_insert_eq.
        -- done.
        -- unfold ctx_Err, WithCancel; simpl.
           by rewrite list_lookup_middle.
      * eapply (SReturn _ i _ (Frame _ _ (Some e) 0)); simpl.
        -- by rewrite list_lookup_insert_eq by (by rewrite length_insert).
        -- done.
        -- done.
    + unfold pc_of; simpl. rewrite list_lookup_insert_eq; [done|].
      by rewrite !length_insert.
Qed.

(** Once every worker has returned, no result is sent any more. *)
Lemma exited_forever s evs s' :
  (∀ w x, workers s !! w = Some x → x = Exited) →
  run s evs = Some s' →
  (∀ w x, workers s' !! w = Some x → x = Exited) ∧ ∀ i, sent i evs = [].
Proof.
  intros Hex. revert evs s'. apply run_ind; [done|].
  intros evs s1 ev s2 _ [IH Hsent] Hst%step_Step.
  assert (Hidle : ∀ w x, workers s1 !! w = Some x → x ≠ Exited → False).
  { intros w x Hw Hx. by apply Hx, (IH w). }
  split.
  - destruct Hst; simpl; try done; exfalso; by eapply Hidle.
  - intros i. unfold sent. rewrite omap_app. fold (sent i evs). rewrite Hsent.
    destruct Hst; simpl; try done. exfalso; by eapply Hidle.
Qed.

(** ** Further properties of the program *)

(** X1. The program terminates: a schedule of the program's own steps
    (no new call, no cancellation, no close) is no longer than the weight
    of the state it starts from. *)
Theorem schedules_are_finite s evs s' :
  run s evs = Some s' →
  Forall (λ ev, internal ev = true) evs →
  length evs ≤ weight s.
Proof. intros Hrun Hall. pose proof (internal_bounded _ _ _ Hrun Hall). lia. Qed.

(** X2. No deadlock: with [done] open and at least one worker, the program
    can take a step as long as some call of [Execute] has not returned. *)
Theorem no_deadlock n d evs s :
  run (Pool n d) evs = Some s →
  done s = false → (0 < effective n)%Z →
  ¬ all_returned s →
  ∃ ev s', internal ev = true ∧ step s ev = Some s'.
Proof.
  intros Hrun Hdone Hpos Hnot. eapply progress; eauto.
  pose proof (run_frame _ _ _ Hrun) as [_ ->]. unfold Pool; simpl. lia.
Qed.

(** X3. [p.in] hands the envelopes of a batch to the workers in the order of
    the batch: the actions started for a call, followed by those of its
    envelopes still in [p.in], are the actions it has enqueued, a prefix of
    its [actions]. *)
Theorem dispatch_in_order n d evs s i c :
  run (Pool n d) evs = Some s →
  calls s !! i = Some c →
  started i evs ++ (action <$> queued_for i s) = enqueued i evs ∧
  (enqueued i evs `prefix_of` c_actions c).
Proof.
  intros Hrun Hi. pose proof (hist_run _ _ _ _ Hrun) as [Q _ _ _ L].
  split; [apply Q|]. specialize (L i). rewrite Hi in L.
  destruct (c_pc c); simpl in L.
  - destruct L as (_ & -> & _). apply prefix_nil.
  - destruct L as (_ & <- & _). by apply prefix_app_r.
  - by destruct L as (_ & ? & _).
  - by destruct L as (? & _).
Qed.

(** X4. The collection loop does not watch [done]: a call that waits for a
    result while every worker has returned waits for ever, whatever happens
    next. *)
Theorem Execute_blocks_without_workers s i c fr evs s' :
  calls s !! i = Some c → c_pc c = Collect fr →
  f_res fr = i → 0 < f_queued fr → buffered i s = [] →
  (∀ w x, workers s !! w = Some x → x = Exited) →
  run s evs = Some s' →
  calls s' !! i = Some c ∧ buffered i s' = [].
Proof.
  intros Hi Hpc Hres Hq Hb Hex. revert evs s'.
  apply (run_ind (λ _ s', (calls s' !! i = Some c ∧ buffered i s' = []) ∧
                          ∀ w x, workers s' !! w = Some x → x = Exited)
           s (conj (conj Hi Hb) Hex)).
  intros _ s1 ev s2 _ [[Hi1 Hb1] Hex1] Hst%step_Step.
  assert (Hidle : ∀ w x, workers s1 !! w = Some x → x ≠ Exited → False).
  { intros w x Hw Hx. by apply Hx, (Hex1 w). }
  assert (Hown : caller ev ≠ Some i).
  { intros Hc. destruct Hst; simplify_eq/=; try congruence.
    - rewrite Hpc in Hpc0. simplify_eq.
      unfold buffered in Hb1. rewrite Hh in Hb1. simpl in Hb1. congruence.
    - rewrite Hpc in Hpc0. simplify_eq. lia. }
  split; [split|].
  - by eapply step_other_call.
  - revert Hb1. unfold buffered.
    destruct Hst; simpl in *; try done; try (exfalso; by eapply Hidle).
    + rewrite lookup_insert_ne; [done|congruence].
    + destruct (decide (f_res fr0 = i)) as [Heq|];
        [|by rewrite lookup_insert_ne].
      rewrite Heq in *. rewrite lookup_insert_eq, Hh. simpl.
      by rewrite Hbuf.
  - destruct Hst; simpl; try done; exfalso; by eapply Hidle.
Qed.

(** ** Contexts along a run *)

(** A context that is done stays done, with the same error. *)
Lemma cancel_keeps c e cs k e' :
  ctx_Err cs k = Some e' → ctx_Err (cancel c e cs) k = Some e'.
Proof.
  unfold ctx_Err. intros H.
  destruct (cancel_lookup c e cs k) as [->|(x & Hx & Hn & _)]; [done|].
  rewrite Hx in H. simpl in H. congruence.
Qed.

Lemma ctx_Err_app cs cs' k e :
  ctx_Err cs k = Some e → ctx_Err (cs ++ cs') k = Some e.
Proof.
  unfold ctx_Err. intros H. destruct (cs !! k) as [x|] eqn:Hx; [|done].
  by rewrite (lookup_app_l_Some _ _ _ _ Hx).
Qed.

Lemma ctx_Err_step s ev s' k e :
  Step s ev s' → ctx_Err (ctxs s) k = Some e → ctx_Err (ctxs s') k = Some e.
Proof.
  intros H Hk.
  destruct H; simpl; unfold WithCancel; auto using cancel_keeps, ctx_Err_app.
  apply collect1_spec in Hcol as (_ & _ & _ & _ & ->).
  case_decide; auto using cancel_keeps.
Qed.

Lemma ctx_Err_run s evs s' k e :
  run s evs = Some s' → ctx_Err (ctxs s) k = Some e → ctx_Err (ctxs s') k = Some e.
Proof.
  intros Hrun Hk. revert evs s' Hrun.
  apply (run_ind (λ _ s', ctx_Err (ctxs s') k = Some e)); [done|].
  intros _ s1 ev s2 _ IH Hst%step_Step. by eapply ctx_Err_step.
Qed.

(** A cancellation reaches the context it names and the contexts derived
    from it, when they are live. *)
Lemma cancel_hit c e cs k x y :
  cs !! c = Some x → Err x = None →
  cs !! k = Some y → Err y = None → k = c ∨ parent y = Some c →
  cancel c e cs !! k = Some (Context (parent y) (Some e)).
Proof.
  intros Hc Hx Hk Hy Hor. unfold cancel. rewrite Hc.
  destruct x as [p [e0|]]; simplify_eq/=.
  rewrite list_lookup_imap, Hk. simpl. unfold cancel_cell.
  by rewrite decide_True.
Qed.

(** A live call keeps its derived context until it returns, and has
    cancelled it when it returns. *)
Lemma frame_or_done s i c fr evs s' :
  wf s → calls s !! i = Some c → frame_of (c_pc c) = Some fr →
  run s evs = Some s' →
  wf s' ∧
  ((∃ c' fr', calls s' !! i = Some c' ∧ frame_of (c_pc c') = Some fr' ∧
              f_ctx fr' = f_ctx fr) ∨
   ((∃ c' r, calls s' !! i = Some c' ∧ c_pc c' = Returned r) ∧
    is_Some (ctx_Err (ctxs s') (f_ctx fr)))).
Proof.
  intros Hwf Hi Hfr. revert evs s'. apply run_ind.
  { split; [done|]. left. eauto. }
  intros _ s1 ev s2 _ [Hwf1 IH] Hst%step_Step.
  split; [by eapply wf_step|].
  destruct IH as [(c1 & fr1 & Hi1 & Hfr1 & Hctx)|[(c1 & r & Hi1 & Hr) [e He]]].
  - destruct (decide (caller ev = Some i)) as [Hc|Hne];
      [|left; exists c1, fr1; eauto using step_other_call].
    destruct (wf_frame _ Hwf1 i c1 fr1 Hi1 Hfr1) as (_ & _ & x & Hx & _).
    assert (Hlt : i < length (calls s1)) by (by eapply lookup_lt_Some).
    destruct Hst; simplify_eq/=; rewrite Hpc in Hfr1; simplify_eq/=.
    + right. split; [eexists _, _; by rewrite list_lookup_insert_eq|].
      rewrite <- Hctx. by apply cancel_done.
    + left. eexists _, _. by rewrite list_lookup_insert_eq.
    + left. eexists _, _. rewrite list_lookup_insert_eq by done.
      split; [done|]. by destruct rest.
    + left. apply collect1_spec in Hcol as (Hc1 & _).
      eexists _, _. rewrite list_lookup_insert_eq by done.
      split; [done|]. simpl. split; [done|]. congruence.
    + right. split; [eexists _, _; by rewrite list_lookup_insert_eq|].
      rewrite <- Hctx. by apply cancel_done.
  - right. split; [|exists e; by eapply ctx_Err_step].
    destruct (returned_stable s1 i c1 r [ev] s2 Hi1 Hr) as [? _]; [|eauto].
    apply step_Step in Hst. by rewrite run_cons, Hst.
Qed.

(** X5. The [defer cancel()] of line 31: whichever way a call of [Execute]
    on a batch that is not empty returns, the context it derived is done
    when it has returned. *)
Theorem derived_context_released n d evs s i c fr evs' s' r :
  run (Pool n d) evs = Some s →
  calls s !! i = Some c → frame_of (c_pc c) = Some fr →
  run s evs' = Some s' →
  pc_of s' i = Some (Returned r) →
  is_Some (ctx_Err (ctxs s') (f_ctx fr)).
Proof.
  intros Hrun Hi Hfr Hrun' Hret.
  destruct (frame_or_done s i c fr evs' s' (wf_run _ _ _ _ Hrun) Hi Hfr Hrun')
    as [_ [(c' & fr' & Hi' & Hfr' & _)|[_ ?]]]; [|done].
  apply pc_of_Some in Hret as (c'' & ? & Hpc). simplify_eq.
  by rewrite Hpc in Hfr'.
Qed.

(** A context made by a caller ends only when its owner ends it. *)
Lemma root_step s ev s' c0 :
  wf s → Step s ev s' → (∀ e, ev ≠ EvCancelCtx c0 e) →
  (∀ x, ctxs s !! c0 = Some x → parent x = None → Err x = None) →
  ∀ x', ctxs s' !! c0 = Some x' → parent x' = None → Err x' = None.
Proof.
  intros Hwf Hst Hncc Hroot x' Hx' Hp'.
  assert (Hcan : ∀ j cj fr, calls s !! j = Some cj →
            frame_of (c_pc cj) = Some fr →
            cancel (f_ctx fr) Canceled (ctxs s) !! c0 = Some x' → Err x' = None).
  { intros j cj fr Hj Hfr Hl.
    destruct (cancel_lookup (f_ctx fr) Canceled (ctxs s) c0)
      as [Heq|(x0 & Hx0 & _ & Hor & Heq)]; rewrite Heq in Hl.
    - eauto.
    - simplify_eq/=.
      destruct (wf_frame _ Hwf j cj fr Hj Hfr) as (_ & _ & y & Hy & Hq).
      destruct Hor as [->|?]; congruence. }
  destruct Hst; simpl in *; eauto.
  - apply lookup_app_Some in Hx' as [?|[_ Hx']]; [eauto|].
    by apply list_lookup_singleton_Some in Hx' as [_ <-].
  - destruct (cancel_lookup c e (ctxs s) c0)
      as [Heq|(x0 & Hx0 & _ & Hor & Heq)]; rewrite Heq in Hx'; [eauto|].
    simplify_eq/=. destruct Hor as [->|?]; [|congruence].
    by destruct (Hncc e).
  - apply lookup_app_Some in Hx' as [?|[_ Hx']]; [eauto|].
    by apply list_lookup_singleton_Some in Hx' as [_ <-].
  - by eapply (Hcan _ c fr); [|rewrite Hpc|].
  - apply collect1_spec in Hcol as (_ & _ & _ & _ & ->).
    case_decide; [|eauto]. by eapply (Hcan _ c fr); [|rewrite Hpc|].
  - by eapply (Hcan _ c fr); [|rewrite Hpc|].
Qed.

(** X6. [Execute] never ends a context of its callers: whatever the calls
    and the workers do (batches that fail, the pool being closed, calls
    returning), a context made by a caller is live as long as no caller has
    ended it. *)
Theorem caller_context_untouched n d evs s c0 x :
  run (Pool n d) evs = Some s →
  (∀ e, EvCancelCtx c0 e ∉ evs) →
  ctxs s !! c0 = Some x → parent x = None → Err x = None.
Proof.
  intros Hrun. revert x.
  revert evs s Hrun. apply (run_ind (λ evs s, ∀ x,
    (∀ e, EvCancelCtx c0 e ∉ evs) →
    ctxs s !! c0 = Some x → parent x = None → Err x = None)).
  { intros x _ Hx. simpl in Hx. by rewrite lookup_nil in Hx. }
  intros evs s ev s' Hrun IH Hst%step_Step x Hncc.
  eapply root_step; eauto using wf_run.
  - intros e ->. apply (Hncc e), elem_of_app. right. by left.
  - intros x0. apply IH. intros e He. apply (Hncc e), elem_of_app. by left.
Qed.

(** The caller's context of a call changes only when the caller ends it. *)
Lemma root_Err_step s ev s' i c :
  wf s → Step s ev s' → calls s !! i = Some c →
  (∀ e, ev ≠ EvCancelCtx (c_ctx c) e) →
  ctx_Err (ctxs s') (c_ctx c) = ctx_Err (ctxs s) (c_ctx c).
Proof.
  intros Hwf H Hi Hnc.
  destruct (wf_root _ Hwf i c Hi) as (x & Hx & Hp).
  unfold ctx_Err. rewrite Hx.
  destruct (ctx_step_lookup _ _ _ _ _ H Hx)
    as [->|[(e & -> & ?)|[(c' & e & -> & ?)|(j & cj & fj & Hc & Hj & Hfj & Hor)]]];
    [done|naive_solver|congruence|].
  destruct Hor as [Heq|Hpar]; [|congruence].
  by destruct (root_not_derived s i j c cj fj).
Qed.

(** X7. Batches do not interfere: the steps of the other calls and of the
    workers, the closing of the pool and the ending of other contexts
    (anything but a step of the call itself or the end of its caller's
    context) leave the locals of a call and the state of its derived context
    and of its caller's context as they are.  In particular the failure of
    one batch cancels no other batch. *)
Theorem batches_do_not_interfere n d evs s i c fr evs' s' :
  run (Pool n d) evs = Some s →
  calls s !! i = Some c → frame_of (c_pc c) = Some fr →
  run s evs' = Some s' →
  Forall (λ ev, caller ev ≠ Some i ∧ ∀ e, ev ≠ EvCancelCtx (c_ctx c) e) evs' →
  calls s' !! i = Some c ∧
  ctx_Err (ctxs s') (f_ctx fr) = ctx_Err (ctxs s) (f_ctx fr) ∧
  ctx_Err (ctxs s') (c_ctx c) = ctx_Err (ctxs s) (c_ctx c).
Proof.
  intros Hrun Hi Hfr Hrun' Hall.
  enough (wf s' ∧ calls s' !! i = Some c ∧
    ctx_Err (ctxs s') (f_ctx fr) = ctx_Err (ctxs s) (f_ctx fr) ∧
    ctx_Err (ctxs s') (c_ctx c) = ctx_Err (ctxs s) (c_ctx c)) as [_ ?]; [done|].
  revert evs' s' Hrun' Hall.
  apply (run_ind (λ evs' s',
    Forall (λ ev, caller ev ≠ Some i ∧ ∀ e, ev ≠ EvCancelCtx (c_ctx c) e) evs' →
    wf s' ∧ calls s' !! i = Some c ∧
    ctx_Err (ctxs s') (f_ctx fr) = ctx_Err (ctxs s) (f_ctx fr) ∧
    ctx_Err (ctxs s') (c_ctx c) = ctx_Err (ctxs s) (c_ctx c))).
  { intros _. eauto using wf_run. }
  clear evs Hrun. intros evs s1 ev s2 _ IH Hst%step_Step Hall.
  apply Forall_app in Hall as [Hall Hev]. rewrite Forall_singleton in Hev.
  destruct Hev as [Hne Hnc]. destruct (IH Hall) as (Hwf1 & Hi1 & Hd & Hr).
  split_and!.
  - by eapply wf_step.
  - by eapply step_other_call.
  - rewrite <- Hd. by eapply derived_step.
  - rewrite <- Hr. by eapply root_Err_step.
Qed.

(** ** The error of the context *)

(** While a call is in the enqueue loop it has not cancelled its derived
    context, which is therefore done exactly when the caller's context is,
    with the same error. *)
Lemma enqueue_mirror n d evs s i c fr a rest :
  run (Pool n d) evs = Some s →
  calls s !! i = Some c → c_pc c = Enqueue fr a rest →
  ctx_Err (ctxs s) (f_ctx fr) = ctx_Err (ctxs s) (c_ctx c).
Proof.
  intros Hrun. revert c fr a rest. revert evs s Hrun.
  apply (run_ind (λ _ s, ∀ c fr a rest,
    calls s !! i = Some c → c_pc c = Enqueue fr a rest →
    ctx_Err (ctxs s) (f_ctx fr) = ctx_Err (ctxs s) (c_ctx c))).
  { intros c fr a rest Hi. simpl in Hi. by rewrite lookup_nil in Hi. }
  intros evs s ev s' Hrun IH Hst%step_Step c' fr' a' rest' Hi' Hpc'.
  pose proof (wf_run _ _ _ _ Hrun) as Hwf.
  destruct (decide (caller ev = Some i)) as [Hc|Hne].
  - destruct Hst; simplify_eq/=;
      rewrite list_lookup_insert_eq in Hi' by (by eapply lookup_lt_Some);
      simplify_eq/=.
    + destruct (wf_root _ Hwf i c Hi) as (x & Hx & Hp).
      unfold WithCancel, ctx_Err at 1. rewrite list_lookup_middle by done.
      simpl. symmetry. unfold ctx_Err.
      by rewrite (lookup_app_l_Some _ _ _ _ Hx), Hx.
    + destruct rest; simplify_eq/=. by eapply IH.
  - destruct (step_other_call_inv _ _ _ _ _ Hst Hne Hi') as [Hi|Hpc];
      [|congruence].
    assert (Hfr : frame_of (c_pc c') = Some fr') by (by rewrite Hpc').
    specialize (IH c' fr' a' rest' Hi Hpc').
    assert ((∃ e, ev = EvCancelCtx (c_ctx c') e)
            ∨ ∀ e, ev ≠ EvCancelCtx (c_ctx c') e) as [[e ->]|Hnc].
    { destruct ev as [|c0 e0| | | | | | | | | | | |]; try (by right).
      destruct (decide (c0 = c_ctx c')) as [->|]; [left; eauto|right; congruence]. }
    + inversion Hst; subst; simpl.
      destruct (wf_frame _ Hwf i c' fr' Hi Hfr) as (_ & _ & y & Hy & Hq).
      unfold ctx_Err in IH |- *. rewrite Hc, Hy in IH. simpl in IH.
      assert (Err y = None) as Hly by congruence.
      rewrite (cancel_hit (c_ctx c') e (ctxs s) (f_ctx fr') x y Hc Hlive Hy Hly)
        by auto.
      rewrite (cancel_hit (c_ctx c') e (ctxs s) (c_ctx c') x x Hc Hlive Hc Hlive)
        by auto.
      done.
    + rewrite (derived_step s ev s' i c' fr'), (root_Err_step s ev s' i c');
        naive_solver.
Qed.

(** The error a call took from [ctx.Err()] at line 46 is the error of its
    caller's context. *)
Lemma observed_caller n d evs s i c e :
  run (Pool n d) evs = Some s →
  calls s !! i = Some c → observed i evs = Some e →
  ctx_Err (ctxs s) (c_ctx c) = Some e.
Proof.
  intros Hrun. revert c. revert evs s Hrun.
  apply (run_ind (λ evs s, ∀ c,
    calls s !! i = Some c → observed i evs = Some e →
    ctx_Err (ctxs s) (c_ctx c) = Some e)); [done|].
  intros evs s ev s' Hrun IH Hst%step_Step c' Hi' Hobs.
  rewrite observed_snoc in Hobs.
  destruct (observed i evs) as [e0|] eqn:Hold.
  - simplify_eq.
    pose proof (hist_call _ _ (hist_run _ _ _ _ Hrun) i) as L.
    destruct (calls s !! i) as [c|] eqn:Hi;
      [|simpl in L; destruct L as (_ & _ & _ & ?); congruence].
    destruct (call_args_step _ _ _ _ _ Hst Hi) as (c'' & ? & Hctx & _).
    simplify_eq. rewrite Hctx. eapply ctx_Err_step; eauto.
  - rewrite observed_single in Hobs.
    destruct Hst; simplify_eq/=. case_decide; simplify_eq/=.
    rewrite list_lookup_insert_eq in Hi' by (by eapply lookup_lt_Some).
    simplify_eq/=. by rewrite <- (enqueue_mirror _ _ _ _ _ _ _ _ _ Hrun Hi Hpc).
Qed.

(** X8. During the enqueue loop the derived context is done exactly when the
    caller's context is, with the same error: the [<-ctx.Done()] case of
    line 45 is ready if and only if the caller's context is done, and the
    error taken at line 46 is the caller's [ctx.Err()]. *)
Theorem Execute_sees_caller_context n d evs s i c fr a rest :
  run (Pool n d) evs = Some s →
  calls s !! i = Some c → c_pc c = Enqueue fr a rest →
  ctx_Err (ctxs s) (f_ctx fr) = ctx_Err (ctxs s) (c_ctx c) ∧
  ∀ e, is_Some (step s (EvEnqCtx i e)) ↔ ctx_Err (ctxs s) (c_ctx c) = Some e.
Proof.
  intros Hrun Hi Hpc.
  pose proof (enqueue_mirror _ _ _ _ _ _ _ _ _ Hrun Hi Hpc) as Hm.
  split; [done|]. intros e. rewrite <- Hm. split.
  - intros [s' Hst%step_Step]. inversion Hst; subst. congruence.
  - intros He. eexists. apply step_Step. by eapply SEnqCtx.
Qed.

(** ** Where results come from *)

Lemma outcomes_snoc i evs ev :
  outcomes i (evs ++ [ev])
  = outcomes i evs ++ match ev with
                      | EvWFinish _ pa r =>
                          if decide (response pa = i) then [(action pa, r)] else []
                      | _ => []
                      end.
Proof.
  unfold outcomes. rewrite omap_app. f_equal.
  destruct ev; simpl; try done. by case_decide.
Qed.

Lemma finished_outcomes i evs : finished i evs = (outcomes i evs).*2.
Proof.
  induction evs as [|ev evs IH] using rev_ind; [done|].
  rewrite finished_snoc, outcomes_snoc, fmap_app, IH. f_equal.
  destruct ev; try done. by case_decide.
Qed.

(** An action that has returned for a batch is one of the batch, and what it
    returned is what its [Execute] returns for some state of the context. *)
Lemma outcomes_run n d evs s i a r :
  run (Pool n d) evs = Some s →
  (a, r) ∈ outcomes i evs →
  (∃ c, calls s !! i = Some c ∧ a ∈ c_actions c) ∧
  ∃ v, r = action_Execute a v.
Proof.
  intros Hrun. revert evs s Hrun.
  apply (run_ind (λ evs s, (a, r) ∈ outcomes i evs →
    (∃ c, calls s !! i = Some c ∧ a ∈ c_actions c) ∧
    ∃ v, r = action_Execute a v)).
  { intros H. by apply elem_of_nil in H. }
  intros evs s ev s' Hrun IH Hst%step_Step Hin.
  rewrite outcomes_snoc in Hin. apply elem_of_app in Hin as [Hin|Hin].
  - destruct (IH Hin) as [(c & Hi & Ha) Hv]. split; [|done].
    destruct (call_args_step _ _ _ _ _ Hst Hi) as (c' & Hi' & _ & Hacts).
    exists c'. by rewrite Hacts.
  - destruct Hst; simpl in Hin; try (by apply elem_of_nil in Hin).
    case_decide as Hr; [|by apply elem_of_nil in Hin].
    apply list_elem_of_singleton in Hin. simplify_eq.
    split; [|eauto]. simpl.
    destruct (wf_worker _ (wf_run _ _ _ _ Hrun) w _ pa Hw eq_refl) as [[h Hh] Hok].
    destruct (wf_chan _ (wf_run _ _ _ _ Hrun) _ h Hh) as (c & Hi & _).
    exists c. split; [done|]. by apply Hok.
Qed.

Lemma first_error_Some rs e : first_error rs = Some e → Some e ∈ rs.
Proof.
  unfold first_error. induction rs as [|[e'|] rs IH]; simpl; [done| |].
  - intros [= ->]. by left.
  - intros H. right. by apply IH.
Qed.

(** A result sent on the result channel of a batch is what some action
    finished for the batch returned. *)
Lemma sent_finished evs s i r :
  hist evs s → r ∈ sent i evs → r ∈ finished i evs.
Proof.
  intros [_ _ S _ _] Hin.
  set (wt := λ x : option error, if decide (x = r) then 1 else 0).
  specialize (S i wt).
  apply list_elem_of_lookup in Hin as [k Hk].
  pose proof (sum_list_with_lookup wt _ _ _ Hk) as Hle.
  unfold wt at 1 in Hle. rewrite decide_True in Hle by done.
  destruct (sum_list_with_pos wt (finished i evs)) as (k' & x & Hk' & Hx); [lia|].
  unfold wt in Hx. case_decide; [|lia]. subst x.
  by eapply list_elem_of_lookup_2.
Qed.

(** X9. [Execute] makes up no error: an error it returns is the one of line
    43 after the pool was found closed, or the caller's [ctx.Err()] taken at
    line 46, or an error that an action of the batch returned. *)
Theorem Execute_error_provenance n d evs s i c e :
  run (Pool n d) evs = Some s →
  calls s !! i = Some c → c_pc c = Returned (Some e) →
  (e = pool_is_closed ∧ EvEnqDone i ∈ evs) ∨
  (observed i evs = Some e ∧ ctx_Err (ctxs s) (c_ctx c) = Some e) ∨
  (∃ a v, a ∈ c_actions c ∧ action_Execute a v = Some e ∧
          (a, Some e) ∈ outcomes i evs).
Proof.
  intros Hrun Hi Hpc.
  pose proof (hist_run _ _ _ _ Hrun) as Hh.
  pose proof (hist_call _ _ Hh i) as L. rewrite Hi, Hpc in L.
  destruct L as [_ [(Hd & [= ->] & _)|(_ & _ & _ & Hrec)]]; [by left|].
  right. unfold recorded in Hrec.
  destruct (observed i evs) as [e0|] eqn:Hobs; simpl in Hrec.
  - left. simplify_eq. split; [done|]. by eapply observed_caller.
  - right. symmetry in Hrec. apply first_error_Some in Hrec.
    assert (Some e ∈ sent i evs) as Hsent.
    { rewrite <- (hist_chan _ _ Hh i). apply elem_of_app. by left. }
    apply (sent_finished _ _ _ _ Hh) in Hsent.
    rewrite finished_outcomes in Hsent.
    apply list_elem_of_fmap in Hsent as ([a r] & Hr & Hin). simpl in Hr. subst r.
    destruct (outcomes_run _ _ _ _ _ _ _ Hrun Hin) as [(c' & Hi' & Ha) [v Hv]].
    simplify_eq. exists a, v. done.
Qed.

(** X10. The result channel of a batch is its own: the results the call has
    received are, in order, the first results sent on its result channel,
    and every result sent on it is what an action of the batch returned. *)
Theorem results_are_own n d evs s i :
  run (Pool n d) evs = Some s →
  (received i evs `prefix_of` sent i evs) ∧
  ∀ r, r ∈ sent i evs →
    ∃ a c v, calls s !! i = Some c ∧ a ∈ c_actions c ∧
             r = action_Execute a v ∧ (a, r) ∈ outcomes i evs.
Proof.
  intros Hrun. pose proof (hist_run _ _ _ _ Hrun) as Hh. split.
  - rewrite <- (hist_chan _ _ Hh i). by apply prefix_app_r.
  - intros r Hsent. apply (sent_finished _ _ _ _ Hh) in Hsent.
    rewrite finished_outcomes in Hsent.
    apply list_elem_of_fmap in Hsent as ([a r'] & Hr & Hin). simpl in Hr. subst r'.
    destruct (outcomes_run _ _ _ _ _ _ _ Hrun Hin) as [(c & Hi & Ha) [v Hv]].
    by exists a, c, v.
Qed.

(** ** The error of a batch left alone *)

Lemma live_result_snoc i evs ev e :
  live_result i evs e → live_result i (evs ++ [ev]) e.
Proof.
  intros (a & Hin & Ha). exists a. split; [|done].
  rewrite outcomes_snoc. apply elem_of_app. by left.
Qed.

Lemma genuine_run n d evs s i c :
  run (Pool n d) evs = Some s →
  (∀ e, EvCancelCtx (c_ctx c) e ∉ evs) →
  calls s !! i = Some c →
  genuine i evs s (c_pc c).
Proof.
  intros Hrun Hncc Hi. set (c0 := c_ctx c) in *.
  assert (c_ctx c = c0) as Hctx by done. clearbody c0.
  enough ((∀ x, ctxs s !! c0 = Some x → parent x = None → Err x = None) ∧
          ∀ c, calls s !! i = Some c → c_ctx c = c0 → genuine i evs s (c_pc c))
    as [_ H]; [by apply H|].
  clear c Hi Hctx. revert evs s Hrun Hncc.
  apply (run_ind (λ evs s, (∀ e, EvCancelCtx c0 e ∉ evs) →
    (∀ x, ctxs s !! c0 = Some x → parent x = None → Err x = None) ∧
    ∀ c, calls s !! i = Some c → c_ctx c = c0 → genuine i evs s (c_pc c))).
  { intros _. split; [intros x Hx|intros c Hc]; simpl in *;
      by rewrite lookup_nil in *. }
  intros evs s ev s' Hrun IH Hst%step_Step Hncc.
  pose proof (wf_run _ _ _ _ Hrun) as Hwf.
  pose proof (hist_run _ _ _ _ Hrun) as Hh.
  assert (Hev : ∀ e, ev ≠ EvCancelCtx c0 e).
  { intros e ->. apply (Hncc e), elem_of_app. right. by left. }
  destruct IH as [Hroot Hgen].
  { intros e He. apply (Hncc e), elem_of_app. by left. }
  split; [by eapply root_step|].
  intros c' Hi' Hctx.
  destruct (decide (caller ev = Some i)) as [Hc|Hne].
  - (* a step of the call *)
    destruct Hst; simplify_eq/=;
      rewrite list_lookup_insert_eq in Hi' by (by eapply lookup_lt_Some);
      simplify_eq/=; try done;
      specialize (Hgen c Hi eq_refl); rewrite Hpc in Hgen; simpl in Hgen.
    + (* lines 30-36 *)
      destruct (wf_root _ Hwf i c Hi) as (x & Hx & Hp).
      split.
      * unfold ctx_Err, WithCancel. rewrite list_lookup_middle by done.
        simpl. unfold ctx_Err. rewrite Hx. simpl. eauto.
      * rewrite outcomes_snoc, app_nil_r.
        pose proof (finished_Entry evs s i c Hh Hi Hpc) as Hfin.
        rewrite finished_outcomes in Hfin. apply fmap_nil_inv in Hfin.
        by rewrite Hfin.
    + (* line 43 *)
      intros e _. left. apply elem_of_app. right. by left.
    + (* line 46 *)
      pose proof (hist_call _ _ Hh i) as L. rewrite Hi, Hpc in L.
      destruct L as (_ & _ & _ & Hfe & _). rewrite Hfe in Hgen.
      destruct Hgen as [Hlive _]. congruence.
    + (* line 48 *)
      assert (outcomes i (evs ++ [EvEnqSend i (PoolAction (f_ctx fr) a (f_res fr))])
              = outcomes i evs) as Ho by (by rewrite outcomes_snoc, app_nil_r).
      destruct rest; simpl; unfold live_result; by rewrite Ho.
    + (* lines 53-60 *)
      apply collect1_spec in Hcol as (Hc1 & _ & _ & Hf1 & ->).
      assert (outcomes i (evs ++ [EvRecv i r]) = outcomes i evs) as Ho
        by (by rewrite outcomes_snoc, app_nil_r).
      rewrite Hf1, Hc1. unfold live_result. rewrite Ho.
      destruct (f_err fr) as [e0|] eqn:Hfe; simpl; [done|].
      destruct r as [e|]; simpl.
      * destruct Hgen as [_ Hall].
        destruct (wf_frame _ Hwf i c fr Hi) as (Hres & _); [by rewrite Hpc|].
        assert (Some e ∈ sent i evs) as Hsent.
        { rewrite <- (hist_chan _ _ Hh i). apply elem_of_app. right.
          unfold buffered. rewrite <- Hres, Hh0. simpl. rewrite Hbuf. by left. }
        apply (sent_finished _ _ _ _ Hh) in Hsent.
        rewrite finished_outcomes in Hsent.
        apply list_elem_of_fmap in Hsent as ([a r'] & Hr & Hin).
        simpl in Hr. subst r'. exists a. split; [done|].
        rewrite Forall_forall in Hall. symmetry. exact (Hall _ Hin).
      * done.
    + (* line 62 *)
      intros e He. right. rewrite He in Hgen.
      by apply live_result_snoc.
  - (* a step of another goroutine *)
    destruct (step_other_call_inv _ _ _ _ _ Hst Hne Hi') as [Hi|Hpc'];
      [|by rewrite Hpc'].
    specialize (Hgen c' Hi Hctx).
    destruct (c_pc c') as [|fr a rest|fr|r] eqn:Hpc; simpl in *; [done| | |].
    1,2: destruct (f_err fr) as [e0|]; [by apply live_result_snoc|];
      destruct Hgen as [Hlive Hall]; split;
      [rewrite <- Hlive; eapply derived_step; eauto;
         [by rewrite Hpc|by rewrite Hctx]
      |rewrite outcomes_snoc; apply Forall_app; split; [done|];
       destruct Hst; simpl; try done; case_decide as Hr; [|done];
       constructor; [|done]; simpl;
       destruct (wf_worker _ Hwf w _ pa Hw eq_refl) as [_ Hok];
       rewrite Hr in Hok; destruct (Hok c' Hi) as [_ Hfc];
       rewrite (Hfc fr) by (by rewrite Hpc); by rewrite Hlive].
    intros e He. destruct (Hgen e He) as [Hd|Hl].
    + left. apply elem_of_app. by left.
    + right. by apply live_result_snoc.
Qed.

(** X15. A batch left alone fails for a reason of its own: if the caller's
    context has not ended and the call did not find the pool closed, the
    error [Execute] returns is what an action of the batch returned when run
    with a live context, never the echo of the cancellation that the first
    error set off. *)
Theorem Execute_error_is_genuine n d evs s i c e :
  run (Pool n d) evs = Some s →
  calls s !! i = Some c → c_pc c = Returned (Some e) →
  (∀ e', EvCancelCtx (c_ctx c) e' ∉ evs) → EvEnqDone i ∉ evs →
  ∃ a, a ∈ c_actions c ∧ action_Execute a None = Some e ∧
       (a, Some e) ∈ outcomes i evs.
Proof.
  intros Hrun Hi Hpc Hncc Hnd.
  pose proof (genuine_run _ _ _ _ i c Hrun Hncc Hi) as Hg.
  rewrite Hpc in Hg. destruct (Hg e eq_refl) as [?|(a & Hin & Ha)]; [done|].
  destruct (outcomes_run _ _ _ _ _ _ _ Hrun Hin) as [(c' & Hi' & Hac) _].
  simplify_eq. by exists a.
Qed.

(** ** After the first error *)

(** Once a call has recorded an error, its derived context is done: either
    the error is the context's own (line 46) or the call has cancelled the
    context (line 57). *)
Lemma err_done n d evs s i c fr e :
  run (Pool n d) evs = Some s →
  calls s !! i = Some c → frame_of (c_pc c) = Some fr → f_err fr = Some e →
  is_Some (ctx_Err (ctxs s) (f_ctx fr)).
Proof.
  intros Hrun. revert c fr e. revert evs s Hrun.
  apply (run_ind (λ _ s, ∀ c fr e,
    calls s !! i = Some c → frame_of (c_pc c) = Some fr → f_err fr = Some e →
    is_Some (ctx_Err (ctxs s) (f_ctx fr)))).
  { intros c fr e Hi. simpl in Hi. by rewrite lookup_nil in Hi. }
  intros evs s ev s' Hrun IH Hst%step_Step c' fr' e' Hi' Hfr' He'.
  pose proof (wf_run _ _ _ _ Hrun) as Hwf.
  destruct (decide (caller ev = Some i)) as [Hc|Hne].
  - destruct Hst; simplify_eq/=;
      rewrite list_lookup_insert_eq in Hi' by (by eapply lookup_lt_Some);
      simplify_eq/=.
    + eauto.
    + destruct rest; simplify_eq/=; apply (IH c fr e'); by rewrite ?Hpc.
    + apply collect1_spec in Hcol as (Hc1 & _ & _ & Hf1 & ->).
      rewrite Hc1. case_decide as Hd.
      * apply cancel_done.
        destruct (wf_frame _ Hwf i c fr Hi) as (_ & _ & x & Hx & _);
          [by rewrite Hpc|eauto].
      * destruct (f_err fr) as [e0|] eqn:Hfe.
        -- apply (IH c fr e0); [done|by rewrite Hpc|done].
        -- destruct r; [|by rewrite He' in Hf1]. by destruct Hd.
  - destruct (step_other_call_inv _ _ _ _ _ Hst Hne Hi') as [Hi|Hpc];
      [|by rewrite Hpc in Hfr'].
    destruct (IH c' fr' e' Hi Hfr' He') as [e0 He0].
    exists e0. by eapply ctx_Err_step.
Qed.

(** The envelopes of a live batch carry its derived context, and go on
    doing so whatever happens next. *)
Lemma carried_run s i c fr evs s' :
  wf s → calls s !! i = Some c → frame_of (c_pc c) = Some fr →
  run s evs = Some s' →
  carried i (f_ctx fr) s'.
Proof.
  intros Hwf Hi Hfr. revert evs s'. apply run_ind.
  { split.
    - intros pa Hin Hr. destruct (wf_queue _ Hwf pa Hin) as [_ Hok].
      rewrite Hr in Hok. by apply (Hok c).
    - intros w x pa Hw Hx Hr. destruct (wf_worker _ Hwf w x pa Hw Hx) as [_ Hok].
      rewrite Hr in Hok. by apply (Hok c). }
  intros evs s1 ev s2 Hrun [Hq Hw] Hst%step_Step.
  destruct (frame_or_done s i c fr evs s1 Hwf Hi Hfr Hrun) as [Hwf1 Hlive].
  split.
  - intros pa0 Hin Hr. destruct Hst; simpl in *; eauto.
    + apply elem_of_app in Hin as [?|Hin]; [eauto|].
      apply list_elem_of_singleton in Hin. subst pa0. simpl in *.
      destruct (wf_frame _ Hwf1 i0 c0 fr0 Hi0) as (Hres & _); [by rewrite Hpc|].
      assert (i0 = i) as -> by congruence.
      destruct Hlive as [(c1 & fr1 & Hi1 & Hfr1 & Hctx)|[(c1 & r & Hi1 & Hr1) _]];
        simplify_eq; [|congruence].
      rewrite Hpc in Hfr1. by simplify_eq/=.
    + apply Hq; [|done]. rewrite Hin0. by right.
  - intros w0 x0 pa0 Hw0 Hx0 Hr.
    destruct Hst; simpl in *; eauto;
      (destruct (decide (w0 = w)) as [->|];
       [rewrite list_lookup_insert_eq in Hw0 by (by eapply lookup_lt_Some)
       |rewrite list_lookup_insert_ne in Hw0 by done; by eauto]);
      simplify_eq/=.
    + apply Hq; [|done]. rewrite Hin. by left.
    + by eapply (Hw w (Running pa0)).
Qed.

(** X11. Fail closed: once a call has recorded an error, be it the error
    of its context or the first error of an action, the context of the batch
    is done, and every action of the batch that returns from then on has
    been run with that done context, also after the call has returned. *)
Theorem error_cancels_batch n d evs s i c fr e :
  run (Pool n d) evs = Some s →
  calls s !! i = Some c → frame_of (c_pc c) = Some fr → f_err fr = Some e →
  ∃ e', ctx_Err (ctxs s) (f_ctx fr) = Some e' ∧
    ∀ evs' s1 w pa r s2, run s evs' = Some s1 → response pa = i →
      step s1 (EvWFinish w pa r) = Some s2 →
      r = action_Execute (action pa) (Some e').
Proof.
  intros Hrun Hi Hfr He.
  destruct (err_done _ _ _ _ _ _ _ _ Hrun Hi Hfr He) as [e' He'].
  exists e'. split; [done|].
  intros evs' s1 w pa r s2 Hrun1 Hr Hst%step_Step.
  destruct (carried_run s i c fr evs' s1 (wf_run _ _ _ _ Hrun) Hi Hfr Hrun1)
    as [_ Hw].
  inversion Hst; subst.
  rewrite (Hw w (Running pa) pa) by done.
  by rewrite (ctx_Err_run _ _ _ _ _ Hrun1 He').
Qed.

(** ** When Execute returns *)

(** X12. [Execute] is synchronous: when a call has returned by any way but
    the [<-p.done] case of line 42, nothing of its batch is left behind:
    no envelope of it waits in [p.in] or is with a worker, its result
    channel is empty, and every action it enqueued has been started, has
    returned and has had its result sent. *)
Theorem Execute_waits_for_batch n d evs s i c r :
  run (Pool n d) evs = Some s →
  calls s !! i = Some c → c_pc c = Returned r → EvEnqDone i ∉ evs →
  inflight i s = 0 ∧ buffered i s = [] ∧
  started i evs = enqueued i evs ∧
  length (finished i evs) = length (enqueued i evs) ∧
  length (sent i evs) = length (enqueued i evs).
Proof.
  intros Hrun Hi Hpc Hnd.
  pose proof (hist_run _ _ _ _ Hrun) as [Q R _ C L].
  pose proof (sent_inflight _ _ _ _ i Hrun) as HS.
  specialize (L i). rewrite Hi, Hpc in L.
  destruct L as [_ [(? & _)|(_ & _ & Hlen & _)]]; [done|].
  pose proof (f_equal length (C i)) as HC. rewrite length_app in HC.
  assert (inflight i s = 0) as H0 by lia.
  assert (buffered i s = []) as Hb by (apply nil_length_inv; lia).
  unfold inflight in H0.
  assert (queued_for i s = []) as Hq by (apply nil_length_inv; lia).
  specialize (Q i). rewrite Hq, app_nil_r in Q. specialize (R i).
  split_and!; [unfold inflight; lia|done|done| |lia].
  rewrite <- Q. lia.
Qed.

(** ** The queue and the workers *)

(** X13. [p.in] is bounded: it never holds more envelopes than the pool has
    workers, the number of workers never changes, and while [p.in] is full
    no call can enqueue. *)
Theorem queue_bounded n d evs s :
  run (Pool n d) evs = Some s →
  length (in_buf s) ≤ Z.to_nat (effective n) ∧
  length (workers s) = Z.to_nat (effective n) ∧
  (length (in_buf s) = Z.to_nat (effective n) →
   ∀ i pa, step s (EvEnqSend i pa) = None).
Proof.
  intros Hrun.
  destruct (run_frame _ _ _ Hrun) as [Hw Hcap].
  rewrite Pool_workers, length_replicate in Hw. simpl in Hcap.
  assert (length (in_buf s) ≤ in_cap s) as Hle.
  { clear Hw Hcap. revert evs s Hrun. apply run_ind; [simpl; lia|].
    intros evs s ev s' _ IH Hst%step_Step.
    destruct Hst; simpl in *; rewrite ?length_app; simpl; try lia.
    rewrite Hin in IH. simpl in IH. lia. }
  split_and!; [lia|done|].
  intros Hfull i pa.
  destruct (step s (EvEnqSend i pa)) as [s'|] eqn:Hst; [|done].
  apply step_Step in Hst. inversion Hst; subst. lia.
Qed.

(** After [close(done)] a worker that has not returned can take a step that
    brings it nearer to returning: the action it runs returns, the result
    it holds is sent, or it takes the [<-done] case. *)
Lemma worker_exit_step n d evs s w x :
  run (Pool n d) evs = Some s → done s = true →
  workers s !! w = Some x → x ≠ Exited →
  ∃ ev s', worker_of ev = Some w ∧ step s ev = Some s' ∧ done s' = true ∧
    sum_list_with worker_weight (workers s')
    < sum_list_with worker_weight (workers s).
Proof.
  intros Hrun Hd Hw Hx. destruct x as [|pa|pa r|]; [| | |done].
  - exists (EvWDone w), (set_worker w Exited s). split_and!; [done| |done|].
    + apply step_Step. by constructor.
    + simpl. pose proof (sum_list_with_insert worker_weight _ _ _ Exited Hw).
      simpl in *. lia.
  - eexists (EvWFinish w pa _), _. split_and!; [done| | |].
    + apply step_Step. by apply SWFinish.
    + done.
    + simpl. pose proof (sum_list_with_insert worker_weight _ _ _
        (Sending pa (action_Execute (action pa) (ctx_Err (ctxs s) (ctx pa)))) Hw).
      simpl in *. lia.
  - destruct (send_ready _ _ _ _ _ _ _ Hrun Hw) as (h & Hh & Hroom).
    eexists (EvWSend w pa r), _. split_and!; [done| | |].
    + apply step_Step. by eapply SWSend.
    + done.
    + simpl. pose proof (sum_list_with_insert worker_weight _ _ _ Idle Hw).
      simpl in *. lia.
Qed.

(** X14. Shutdown: after [close(done)] no worker is stuck: a worker that
    has not returned can take a step, and the workers can all return by
    steps of their own, each answering the envelope in hand first. *)
Theorem workers_can_exit n d evs s :
  run (Pool n d) evs = Some s → done s = true →
  (∀ w x, workers s !! w = Some x → x ≠ Exited →
     ∃ ev s', worker_of ev = Some w ∧ step s ev = Some s') ∧
  ∃ evs' s', Forall (λ ev, is_Some (worker_of ev)) evs' ∧
    run s evs' = Some s' ∧
    ∀ w x, workers s' !! w = Some x → x = Exited.
Proof.
  intros Hrun Hd. split.
  { intros w x Hw Hx.
    destruct (worker_exit_step _ _ _ _ _ _ Hrun Hd Hw Hx) as (ev & s' & ? & ? & _).
    eauto. }
  remember (sum_list_with worker_weight (workers s)) as m eqn:Hm.
  revert evs s Hrun Hd Hm.
  induction m as [m IH] using lt_wf_ind. intros evs s Hrun Hd Hm.
  destruct (decide (m = 0)) as [->|Hpos].
  - exists [], s. split_and!; [done|done|].
    intros w x Hw. symmetry in Hm. rewrite sum_list_with_0 in Hm.
    rewrite Forall_lookup in Hm. specialize (Hm w x Hw). by destruct x.
  - destruct (sum_list_with_pos worker_weight (workers s)) as (w & x & Hw & Hx);
      [lia|].
    destruct (worker_exit_step _ _ _ _ w x Hrun Hd Hw) as (ev & s1 & Hev & Hst & Hd1 & Hlt);
      [intros ->; simpl in Hx; lia|].
    destruct (IH _ ltac:(rewrite Hm; exact Hlt) (evs ++ [ev]) s1)
      as (evs' & s' & Hall & Hrun' & Hex); [by rewrite run_snoc, Hrun|done|done|].
    exists (ev :: evs'), s'. split_and!; [|by rewrite run_cons, Hst|done].
    constructor; [by rewrite Hev|done].
Qed.

End workerpool.

(** * Concrete schedules *)

(** Three actions of a caller: one that returns nil whatever its context,
    one that fails, and one that returns its context's error. *)
Inductive job := JobOk | JobFail | JobObey.

#[global] Instance job_eq_dec : EqDecision job.
Proof. solve_decision. Defined.

Definition job_Execute (j : job) (ctx_err : option error) : option error :=
  match j with
  | JobOk => None
  | JobFail => Some (errorString "boom")
  | JobObey => ctx_err
  end.

(** A pool of one worker on a machine with four CPUs, and the state a
    schedule leads it to. *)
Definition pool1 : @state job := Pool 4 1 false.
Definition after (evs : list (@event job)) : @state job :=
  default pool1 (run job_Execute pool1 evs).

(** The envelope of the one action of the first call, whose derived context
    is the second context made. *)
Definition pa_ok : @poolAction job := PoolAction 1 JobOk 0.

(** A batch of one action that runs to its end. *)
Definition sched_submit : list (@event job) :=
  [EvNewCtx; EvCall 0 [JobOk]; EvBegin 0; EvEnqSend 0 pa_ok].
Definition sched_work : list (@event job) :=
  [EvWRecv 0 pa_ok; EvWFinish 0 pa_ok None; EvWSend 0 pa_ok None].
Definition sched_collect : list (@event job) := [EvRecv 0 None; EvReturn 0 None].
Definition sched_ok : list (@event job) := sched_submit ++ sched_work ++ sched_collect.

Example sched_ok_runs :
  pc_of (after sched_ok) 0 = Some (Returned None).
Proof. vm_compute. reflexivity. Qed.

(** A batch of two actions on the pool of one worker, the pool being closed
    after the first is enqueued, and then the worker leaving. *)
Definition sched_two : list (@event job) :=
  [EvNewCtx; EvCall 0 [JobOk; JobOk]; EvBegin 0; EvEnqSend 0 pa_ok; EvClose].
Definition sched_abandoned : list (@event job) := sched_submit ++ [EvClose; EvWDone 0].

(** A caller's context cancelled before the call. *)
Definition sched_cancelled : list (@event job) :=
  [EvNewCtx; EvCancelCtx 0 Canceled; EvCall 0 [JobOk]; EvBegin 0].

(** A caller's context cancelled while the batch is collected. *)
Definition sched_late_cancel : list (@event job) :=
  sched_submit ++ [EvCancelCtx 0 Canceled] ++ sched_work ++ sched_collect.

(** An action that obeys its context, enqueued and then cancelled. *)
Definition pa_obey : @poolAction job := PoolAction 1 JobObey 0.
Definition sched_obey : list (@event job) :=
  [EvNewCtx; EvCall 0 [JobObey]; EvBegin 0; EvEnqSend 0 pa_obey;
   EvCancelCtx 0 Canceled].

(** An empty batch. *)
Definition sched_empty : list (@event job) := [EvNewCtx; EvCall 0 []].

(** A batch of one action that fails, run to its end. *)
Definition boom : error := errorString "boom".
Definition pa_fail : @poolAction job := PoolAction 1 JobFail 0.
Definition sched_fail_sent : list (@event job) :=
  [EvNewCtx; EvCall 0 [JobFail]; EvBegin 0; EvEnqSend 0 pa_fail;
   EvWRecv 0 pa_fail; EvWFinish 0 pa_fail (Some boom);
   EvWSend 0 pa_fail (Some boom)].
Definition sched_fail : list (@event job) :=
  sched_fail_sent ++ [EvRecv 0 (Some boom); EvReturn 0 (Some boom)].

(** Two calls with the same caller's context: the first has begun, the
    second has enqueued an action that fails; then the second batch runs to
    its end. *)
Definition pa_fail2 : @poolAction job := PoolAction 2 JobFail 1.
Definition sched_pair : list (@event job) :=
  [EvNewCtx; EvCall 0 [JobOk]; EvCall 0 [JobFail]; EvBegin 0; EvBegin 1;
   EvEnqSend 1 pa_fail2].
Definition sched_pair_fails : list (@event job) :=
  [EvWRecv 0 pa_fail2; EvWFinish 0 pa_fail2 (Some boom);
   EvWSend 0 pa_fail2 (Some boom); EvRecv 1 (Some boom);
   EvReturn 1 (Some boom)].

(** A batch of an action that fails and one that obeys its context: the
    error of the first is received while the second waits in [p.in]. *)
Definition sched_mixed : list (@event job) :=
  [EvNewCtx; EvCall 0 [JobFail; JobObey]; EvBegin 0; EvEnqSend 0 pa_fail;
   EvWRecv 0 pa_fail; EvEnqSend 0 pa_obey; EvWFinish 0 pa_fail (Some boom);
   EvWSend 0 pa_fail (Some boom); EvRecv 0 (Some boom)].

Ltac runs := vm_compute; reflexivity.

Lemma concurrency_bound_witness :
  let evs := sched_submit ++ [EvWRecv 0 pa_ok] in
  run job_Execute pool1 evs = Some (after evs) ∧
  executing (after evs) ≤ Z.to_nat (effective 4 1).
Proof.
  intros evs.
  assert (H : run job_Execute pool1 evs = Some (after evs)) by runs.
  split; [exact H|]. exact (concurrency_bound job_Execute 4 1 false evs _ H).
Defined.

Lemma Execute_empty_witness :
  calls (after sched_empty) !! 0 = Some (Call 0 [] Entry) ∧
  ∃ s', step job_Execute (after sched_empty) (EvBegin 0) = Some s' ∧
        pc_of s' 0 = Some (Returned None) ∧
        ctxs s' = ctxs (after sched_empty) ∧ chans s' = chans (after sched_empty).
Proof.
  assert (H : calls (after sched_empty) !! 0 = Some (Call 0 [] Entry)) by runs.
  split; [exact H|].
  destruct (Execute_empty job_Execute _ 0 0 H) as (s' & H1 & H2 & H3 & H4 & _).
  exists s'. repeat split; assumption.
Defined.

Lemma work_one_result_witness :
  let evs := sched_submit ++ [EvWRecv 0 pa_ok] in
  run job_Execute pool1 evs = Some (after evs) ∧
  workers (after evs) !! 0 = Some (Running pa_ok) ∧
  worker_hist 0 evs (Running pa_ok).
Proof.
  intros evs.
  assert (H1 : run job_Execute pool1 evs = Some (after evs)) by runs.
  assert (H2 : workers (after evs) !! 0 = Some (Running pa_ok)) by runs.
  split; [exact H1|]. split; [exact H2|].
  exact (proj1 (work_one_result job_Execute 4 1 false evs _ 0 _ H1 H2)).
Defined.

Lemma work_ignores_cancellation_witness :
  run job_Execute pool1 sched_obey = Some (after sched_obey) ∧
  workers (after sched_obey) !! 0 = Some Idle ∧
  in_buf (after sched_obey) = [pa_obey] ∧
  ctx_Err (ctxs (after sched_obey)) (ctx pa_obey) = Some Canceled ∧
  ∃ s', run job_Execute (after sched_obey)
          [EvWRecv 0 pa_obey; EvWFinish 0 pa_obey (Some Canceled);
           EvWSend 0 pa_obey (Some Canceled)] = Some s' ∧
        buffered 0 s' = buffered 0 (after sched_obey) ++ [Some Canceled].
Proof.
  assert (H1 : run job_Execute pool1 sched_obey = Some (after sched_obey)) by runs.
  assert (H2 : workers (after sched_obey) !! 0 = Some Idle) by runs.
  assert (H3 : in_buf (after sched_obey) = [pa_obey]) by runs.
  assert (H4 : ctx_Err (ctxs (after sched_obey)) (ctx pa_obey) = Some Canceled)
    by runs.
  repeat (split; [assumption|]).
  destruct (work_ignores_cancellation job_Execute 4 1 false sched_obey _ 0
              pa_obey [] Canceled H1 H2 H3 H4) as (_ & s' & Hrun & _ & Hbuf).
  exists s'. split; [exact Hrun|exact Hbuf].
Defined.

Lemma Execute_pool_closed_witness :
  run job_Execute pool1 sched_two = Some (after sched_two) ∧
  step job_Execute (after sched_two) (EvEnqDone 0)
  = Some (after (sched_two ++ [EvEnqDone 0])) ∧
  pc_of (after (sched_two ++ [EvEnqDone 0])) 0 = Some (Returned (Some pool_is_closed)) ∧
  received 0 sched_two = [].
Proof.
  assert (H1 : run job_Execute pool1 sched_two = Some (after sched_two)) by runs.
  assert (H2 : step job_Execute (after sched_two) (EvEnqDone 0)
               = Some (after (sched_two ++ [EvEnqDone 0]))) by runs.
  repeat (split; [assumption|]).
  destruct (Execute_pool_closed job_Execute 4 1 false sched_two _ 0 _ H1 H2)
    as (_ & _ & H3 & _ & _ & _ & H4 & _).
  split; [exact H3|exact H4].
Defined.

Lemma Execute_collect_witness :
  let evs := sched_submit ++ sched_work in
  run job_Execute pool1 evs = Some (after evs) ∧
  pc_of (after evs) 0 = Some (Collect (Frame 1 0 None 1)) ∧
  length (received 0 evs) + 1 = length (enqueued 0 evs) ∧
  None = recorded 0 evs.
Proof.
  intros evs.
  assert (H1 : run job_Execute pool1 evs = Some (after evs)) by runs.
  assert (H2 : pc_of (after evs) 0 = Some (Collect (Frame 1 0 None 1))) by runs.
  repeat (split; [assumption|]).
  destruct (Execute_collect job_Execute 4 1 false evs _ 0 _ H1 H2)
    as (_ & H3 & H4 & _).
  split; [exact H3|exact H4].
Defined.

Lemma Execute_context_done_witness :
  run job_Execute pool1 sched_cancelled = Some (after sched_cancelled) ∧
  step job_Execute (after sched_cancelled) (EvEnqCtx 0 Canceled)
  = Some (after (sched_cancelled ++ [EvEnqCtx 0 Canceled])) ∧
  ∃ fr a rest,
    pc_of (after sched_cancelled) 0 = Some (Enqueue fr a rest) ∧
    ctx_Err (ctxs (after sched_cancelled)) (f_ctx fr) = Some Canceled.
Proof.
  assert (H1 : run job_Execute pool1 sched_cancelled = Some (after sched_cancelled))
    by runs.
  assert (H2 : step job_Execute (after sched_cancelled) (EvEnqCtx 0 Canceled)
               = Some (after (sched_cancelled ++ [EvEnqCtx 0 Canceled]))) by runs.
  repeat (split; [assumption|]).
  destruct (Execute_context_done job_Execute 4 1 false sched_cancelled _ 0 H1)
    as [Hfirst _].
  destruct (Hfirst Canceled _ H2) as (fr & a & rest & H3 & H4 & _).
  exists fr, a, rest. split; [exact H3|exact H4].
Defined.

Ltac not_in :=
  let H := fresh in
  intros H; cbv [sched_ok sched_submit sched_work sched_collect app] in H;
  repeat (apply elem_of_cons in H as [H|H]; [discriminate H|]);
  by apply elem_of_nil in H.

Lemma Execute_nil_witness :
  run job_Execute pool1 sched_ok = Some (after sched_ok) ∧
  calls (after sched_ok) !! 0 = Some (Call 0 [JobOk] (Returned None)) ∧
  (EvClose ∉ sched_ok) ∧ (∀ e, EvCancelCtx 0 e ∉ sched_ok) ∧
  (∀ a, a ∈ [JobOk] → job_Execute a None = None) ∧
  started 0 sched_ok = [JobOk] ∧
  Forall (λ r, r = None) (finished 0 sched_ok) ∧
  (∀ evs' s', Forall (λ ev, internal ev = true) evs' →
     run job_Execute (after sched_ok) evs' = Some s' →
     length evs' ≤ weight (after sched_ok)).
Proof.
  assert (H1 : run job_Execute pool1 sched_ok = Some (after sched_ok)) by runs.
  assert (H2 : calls (after sched_ok) !! 0
               = Some (Call 0 [JobOk] (Returned None))) by runs.
  assert (H3 : EvClose ∉ sched_ok) by not_in.
  assert (H4 : ∀ e, EvCancelCtx 0 e ∉ sched_ok) by (intros e; not_in).
  assert (H5 : ∀ a, a ∈ [JobOk] → job_Execute a None = None).
  { intros a Ha. apply list_elem_of_singleton in Ha. by subst a. }
  repeat (split; [assumption|]).
  destruct (Execute_nil job_Execute 4 1 false sched_ok _ 0 _ H1 H2) as [Ha Hb].
  destruct (Ha eq_refl) as (_ & _ & _ & H6 & _ & H7).
  destruct (Hb eq_refl H3 H4 H5) as (_ & _ & H8).
  split; [exact H6|]. split; [exact H7|exact H8].
Defined.

Lemma result_channel_never_blocks_witness :
  let evs := sched_two ++ [EvEnqDone 0; EvWRecv 0 pa_ok; EvWFinish 0 pa_ok None] in
  run job_Execute pool1 evs = Some (after evs) ∧
  calls (after evs) !! 0
  = Some (Call 0 [JobOk; JobOk] (Returned (Some pool_is_closed))) ∧
  workers (after evs) !! 0 = Some (Sending pa_ok None) ∧
  ∃ s', step job_Execute (after evs) (EvWSend 0 pa_ok None) = Some s' ∧
        buffered 0 s' = buffered 0 (after evs) ++ [None].
Proof.
  intros evs.
  assert (H1 : run job_Execute pool1 evs = Some (after evs)) by runs.
  assert (H2 : calls (after evs) !! 0
               = Some (Call 0 [JobOk; JobOk] (Returned (Some pool_is_closed))))
    by runs.
  assert (H3 : workers (after evs) !! 0 = Some (Sending pa_ok None)) by runs.
  repeat (split; [assumption|]).
  destruct (result_channel_never_blocks job_Execute 4 1 false evs _ 0 _ H1 H2)
    as (_ & _ & _ & Hsend).
  exact (Hsend 0 pa_ok None H3 eq_refl).
Defined.

(** C1, the claim as stated fails: the caller's context (and with it the
    derived context) ends after the action is enqueued and before its
    result is received; the action ignores its context and returns nil, and
    [Execute] returns nil. *)
Lemma Execute_nil_counterexample :
  let evs := sched_late_cancel in
  run job_Execute pool1 evs = Some (after evs) ∧
  evs = sched_submit ++ [EvCancelCtx 0 Canceled] ++ sched_work ++ sched_collect ∧
  ctx_Err (ctxs (after (sched_submit ++ [EvCancelCtx 0 Canceled]))) 0 = Some Canceled ∧
  ctx_Err (ctxs (after (sched_submit ++ [EvCancelCtx 0 Canceled]))) 1 = Some Canceled ∧
  received 0 sched_submit = [] ∧
  received 0 (sched_work ++ sched_collect) = [None] ∧
  calls (after evs) !! 0 = Some (Call 0 [JobOk] (Returned None)).
Proof. cbv zeta. split_and!; runs. Qed.

(** C4, the claim as stated fails: the caller's context is cancelled before
    the call, so the derived context is done throughout the enqueue loop;
    [p.in] has room, the [select] takes the send, the action is enqueued and
    executed, and [Execute] returns nil instead of the cancellation error. *)
Lemma Execute_context_done_counterexample :
  let evs := [EvEnqSend 0 pa_ok] ++ sched_work ++ sched_collect in
  run job_Execute pool1 sched_cancelled = Some (after sched_cancelled) ∧
  pc_of (after sched_cancelled) 0 = Some (Enqueue (Frame 1 0 None 0) JobOk []) ∧
  ctx_Err (ctxs (after sched_cancelled)) 1 = Some Canceled ∧
  run job_Execute (after sched_cancelled) evs = Some (after (sched_cancelled ++ evs)) ∧
  enqueued 0 evs = [JobOk] ∧
  started 0 evs = [JobOk] ∧
  pc_of (after (sched_cancelled ++ evs)) 0 = Some (Returned None).
Proof. cbv zeta. split_and!; runs. Qed.

(** C8, the claim as stated fails: one action is enqueued, [done] is closed
    and the only worker takes the [<-done] case; the envelope stays in
    [p.in], and whatever happens next no result is ever sent on the result
    channel: the results sent are never as many as the actions enqueued. *)
Lemma result_channel_counterexample :
  let evs := sched_abandoned in
  run job_Execute pool1 evs = Some (after evs) ∧
  enqueued 0 evs = [JobOk] ∧
  in_buf (after evs) = [pa_ok] ∧
  workers (after evs) = [Exited] ∧
  ∀ evs' s', run job_Execute (after evs) evs' = Some s' →
    sent 0 (evs ++ evs') = [] ∧
    length (sent 0 (evs ++ evs')) < length (enqueued 0 (evs ++ evs')).
Proof.
  intros evs. do 4 (split; [runs|]).
  intros evs' s' Hrun.
  assert (Hex : ∀ w x, workers (after evs) !! w = Some x → x = Exited).
  { intros [|w] x; vm_compute; congruence. }
  destruct (exited_forever job_Execute _ _ _ Hex Hrun) as [_ Hsent].
  assert (Hs : sent 0 (evs ++ evs') = []).
  { unfold sent. rewrite omap_app. fold (sent 0 evs'). by rewrite Hsent. }
  split; [exact Hs|]. rewrite Hs.
  unfold enqueued. rewrite omap_app, length_app. simpl. lia.
Qed.

Lemma schedules_are_finite_witness :
  let evs := sched_work ++ sched_collect in
  run job_Execute (after sched_submit) evs = Some (after sched_ok) ∧
  Forall (λ ev, internal ev = true) evs ∧
  length evs ≤ weight (after sched_submit).
Proof.
  intros evs.
  assert (H1 : run job_Execute (after sched_submit) evs = Some (after sched_ok))
    by runs.
  assert (H2 : Forall (λ ev, internal ev = true) evs)
    by (repeat constructor).
  repeat (split; [assumption|]).
  exact (schedules_are_finite job_Execute _ _ _ H1 H2).
Defined.

Lemma no_deadlock_witness :
  run job_Execute pool1 sched_submit = Some (after sched_submit) ∧
  done (after sched_submit) = false ∧
  ∃ ev s', internal ev = true ∧
           step job_Execute (after sched_submit) ev = Some s'.
Proof.
  assert (H1 : run job_Execute pool1 sched_submit = Some (after sched_submit))
    by runs.
  assert (H2 : done (after sched_submit) = false) by runs.
  repeat (split; [assumption|]).
  apply (no_deadlock job_Execute 4 1 false sched_submit _ H1 H2).
  - reflexivity.
  - intros Hall. destruct (Hall 0 (Call 0 [JobOk] (Collect (Frame 1 0 None 1))))
      as [r Hr]; [runs|discriminate Hr].
Defined.

Lemma dispatch_in_order_witness :
  run job_Execute pool1 sched_two = Some (after sched_two) ∧
  calls (after sched_two) !! 0
  = Some (Call 0 [JobOk; JobOk] (Enqueue (Frame 1 0 None 1) JobOk [])) ∧
  (enqueued 0 sched_two `prefix_of` [JobOk; JobOk]).
Proof.
  assert (H1 : run job_Execute pool1 sched_two = Some (after sched_two)) by runs.
  assert (H2 : calls (after sched_two) !! 0
               = Some (Call 0 [JobOk; JobOk] (Enqueue (Frame 1 0 None 1) JobOk [])))
    by runs.
  repeat (split; [assumption|]).
  exact (proj2 (dispatch_in_order job_Execute 4 1 false sched_two _ 0 _ H1 H2)).
Defined.

Lemma Execute_blocks_without_workers_witness :
  let s := after sched_abandoned in
  let c := Call 0 [JobOk] (Collect (Frame 1 0 None 1)) in
  calls s !! 0 = Some c ∧
  workers s = [Exited] ∧
  calls (after (sched_abandoned ++ [EvNewCtx])) !! 0 = Some c.
Proof.
  intros s c.
  assert (H1 : calls s !! 0 = Some c) by runs.
  assert (H2 : workers s = [Exited]) by runs.
  repeat (split; [assumption|]).
  refine (proj1 (Execute_blocks_without_workers job_Execute s 0 c (Frame 1 0 None 1)
                   [EvNewCtx] (after (sched_abandoned ++ [EvNewCtx]))
                   H1 eq_refl eq_refl _ _ _ _)).
  - simpl. lia.
  - runs.
  - intros [|w] x; vm_compute; congruence.
  - runs.
Defined.

Ltac absent :=
  let H := fresh in
  intros H; vm_compute in H;
  repeat (apply elem_of_cons in H as [H|H]; [discriminate H|]);
  by apply elem_of_nil in H.

Lemma derived_context_released_witness :
  let evs' := sched_work ++ sched_collect in
  run job_Execute pool1 sched_submit = Some (after sched_submit) ∧
  calls (after sched_submit) !! 0
  = Some (Call 0 [JobOk] (Collect (Frame 1 0 None 1))) ∧
  run job_Execute (after sched_submit) evs' = Some (after sched_ok) ∧
  pc_of (after sched_ok) 0 = Some (Returned None) ∧
  is_Some (ctx_Err (ctxs (after sched_ok)) 1).
Proof.
  intros evs'.
  assert (H1 : run job_Execute pool1 sched_submit = Some (after sched_submit))
    by runs.
  assert (H2 : calls (after sched_submit) !! 0
               = Some (Call 0 [JobOk] (Collect (Frame 1 0 None 1)))) by runs.
  assert (H3 : run job_Execute (after sched_submit) evs' = Some (after sched_ok))
    by runs.
  assert (H4 : pc_of (after sched_ok) 0 = Some (Returned None)) by runs.
  do 4 (split; [assumption|]).
  exact (derived_context_released job_Execute 4 1 false sched_submit _ 0 _
           (Frame 1 0 None 1) evs' _ None H1 H2 eq_refl H3 H4).
Defined.

Lemma caller_context_untouched_witness :
  run job_Execute pool1 sched_fail = Some (after sched_fail) ∧
  (∀ e, EvCancelCtx 0 e ∉ sched_fail) ∧
  ctxs (after sched_fail) !! 0 = Some (Context None None) ∧
  pc_of (after sched_fail) 0 = Some (Returned (Some boom)) ∧
  Err (Context None None) = None.
Proof.
  assert (H1 : run job_Execute pool1 sched_fail = Some (after sched_fail)) by runs.
  assert (H2 : ∀ e, EvCancelCtx 0 e ∉ sched_fail) by (intros e; absent).
  assert (H3 : ctxs (after sched_fail) !! 0 = Some (Context None None)) by runs.
  assert (H4 : pc_of (after sched_fail) 0 = Some (Returned (Some boom))) by runs.
  do 4 (split; [assumption|]).
  exact (caller_context_untouched job_Execute 4 1 false sched_fail _ 0 _
           H1 H2 H3 eq_refl).
Defined.

Lemma batches_do_not_interfere_witness :
  let c := Call 0 [JobOk] (Enqueue (Frame 1 0 None 0) JobOk []) in
  run job_Execute pool1 sched_pair = Some (after sched_pair) ∧
  calls (after sched_pair) !! 0 = Some c ∧
  run job_Execute (after sched_pair) sched_pair_fails
  = Some (after (sched_pair ++ sched_pair_fails)) ∧
  pc_of (after (sched_pair ++ sched_pair_fails)) 1 = Some (Returned (Some boom)) ∧
  calls (after (sched_pair ++ sched_pair_fails)) !! 0 = Some c ∧
  ctx_Err (ctxs (after (sched_pair ++ sched_pair_fails))) 1
  = ctx_Err (ctxs (after sched_pair)) 1.
Proof.
  intros c.
  assert (H1 : run job_Execute pool1 sched_pair = Some (after sched_pair)) by runs.
  assert (H2 : calls (after sched_pair) !! 0 = Some c) by runs.
  assert (H3 : run job_Execute (after sched_pair) sched_pair_fails
               = Some (after (sched_pair ++ sched_pair_fails))) by runs.
  assert (H4 : pc_of (after (sched_pair ++ sched_pair_fails)) 1
               = Some (Returned (Some boom))) by runs.
  assert (H5 : Forall (λ ev : @event job,
                 caller ev ≠ Some 0 ∧ ∀ e, ev ≠ EvCancelCtx (c_ctx c) e)
                 sched_pair_fails).
  { repeat (constructor; [split; [|intros e]; intros H; vm_compute in H;
                            discriminate H|]).
    constructor. }
  do 4 (split; [assumption|]).
  destruct (batches_do_not_interfere job_Execute 4 1 false sched_pair _ 0 c
              (Frame 1 0 None 0) sched_pair_fails _ H1 H2 eq_refl H3 H5)
    as (H6 & H7 & _).
  split; [exact H6|exact H7].
Defined.

Lemma Execute_sees_caller_context_witness :
  run job_Execute pool1 sched_cancelled = Some (after sched_cancelled) ∧
  calls (after sched_cancelled) !! 0
  = Some (Call 0 [JobOk] (Enqueue (Frame 1 0 None 0) JobOk [])) ∧
  ctx_Err (ctxs (after sched_cancelled)) 0 = Some Canceled ∧
  ctx_Err (ctxs (after sched_cancelled)) 1 = ctx_Err (ctxs (after sched_cancelled)) 0 ∧
  is_Some (step job_Execute (after sched_cancelled) (EvEnqCtx 0 Canceled)).
Proof.
  assert (H1 : run job_Execute pool1 sched_cancelled = Some (after sched_cancelled))
    by runs.
  assert (H2 : calls (after sched_cancelled) !! 0
               = Some (Call 0 [JobOk] (Enqueue (Frame 1 0 None 0) JobOk [])))
    by runs.
  assert (H3 : ctx_Err (ctxs (after sched_cancelled)) 0 = Some Canceled) by runs.
  do 3 (split; [assumption|]).
  destruct (Execute_sees_caller_context job_Execute 4 1 false sched_cancelled _ 0 _
              (Frame 1 0 None 0) JobOk [] H1 H2 eq_refl) as [H4 H5].
  split; [exact H4|]. apply H5. exact H3.
Defined.

Lemma Execute_error_provenance_witness :
  run job_Execute pool1 sched_fail = Some (after sched_fail) ∧
  calls (after sched_fail) !! 0 = Some (Call 0 [JobFail] (Returned (Some boom))) ∧
  ((boom = pool_is_closed ∧ EvEnqDone 0 ∈ sched_fail) ∨
   (observed 0 sched_fail = Some boom ∧
    ctx_Err (ctxs (after sched_fail)) 0 = Some boom) ∨
   (∃ a v, a ∈ [JobFail] ∧ job_Execute a v = Some boom ∧
           (a, Some boom) ∈ outcomes 0 sched_fail)).
Proof.
  assert (H1 : run job_Execute pool1 sched_fail = Some (after sched_fail)) by runs.
  assert (H2 : calls (after sched_fail) !! 0
               = Some (Call 0 [JobFail] (Returned (Some boom)))) by runs.
  do 2 (split; [assumption|]).
  exact (Execute_error_provenance job_Execute 4 1 false sched_fail _ 0 _ boom
           H1 H2 eq_refl).
Defined.

Lemma results_are_own_witness :
  run job_Execute pool1 sched_fail_sent = Some (after sched_fail_sent) ∧
  sent 0 sched_fail_sent = [Some boom] ∧
  (received 0 sched_fail_sent `prefix_of` sent 0 sched_fail_sent).
Proof.
  assert (H1 : run job_Execute pool1 sched_fail_sent = Some (after sched_fail_sent))
    by runs.
  assert (H2 : sent 0 sched_fail_sent = [Some boom]) by runs.
  do 2 (split; [assumption|]).
  exact (proj1 (results_are_own job_Execute 4 1 false sched_fail_sent _ 0 H1)).
Defined.

Lemma error_cancels_batch_witness :
  let fr := Frame 1 0 (Some boom) 1 in
  run job_Execute pool1 sched_mixed = Some (after sched_mixed) ∧
  calls (after sched_mixed) !! 0 = Some (Call 0 [JobFail; JobObey] (Collect fr)) ∧
  in_buf (after sched_mixed) = [pa_obey] ∧
  ∃ e', ctx_Err (ctxs (after sched_mixed)) 1 = Some e' ∧
    ∀ r s2,
      step job_Execute (after (sched_mixed ++ [EvWRecv 0 pa_obey]))
        (EvWFinish 0 pa_obey r) = Some s2 →
      r = Some e'.
Proof.
  intros fr.
  assert (H1 : run job_Execute pool1 sched_mixed = Some (after sched_mixed)) by runs.
  assert (H2 : calls (after sched_mixed) !! 0
               = Some (Call 0 [JobFail; JobObey] (Collect fr))) by runs.
  assert (H3 : in_buf (after sched_mixed) = [pa_obey]) by runs.
  assert (H4 : run job_Execute (after sched_mixed) [EvWRecv 0 pa_obey]
               = Some (after (sched_mixed ++ [EvWRecv 0 pa_obey]))) by runs.
  do 3 (split; [assumption|]).
  destruct (error_cancels_batch job_Execute 4 1 false sched_mixed _ 0 _ fr boom
              H1 H2 eq_refl eq_refl) as (e' & H5 & H6).
  exists e'. split; [exact H5|].
  intros r s2 Hst. exact (H6 _ _ 0 pa_obey r s2 H4 eq_refl Hst).
Defined.

Lemma Execute_waits_for_batch_witness :
  run job_Execute pool1 sched_ok = Some (after sched_ok) ∧
  calls (after sched_ok) !! 0 = Some (Call 0 [JobOk] (Returned None)) ∧
  (EvEnqDone 0 ∉ sched_ok) ∧
  inflight 0 (after sched_ok) = 0 ∧ buffered 0 (after sched_ok) = [].
Proof.
  assert (H1 : run job_Execute pool1 sched_ok = Some (after sched_ok)) by runs.
  assert (H2 : calls (after sched_ok) !! 0
               = Some (Call 0 [JobOk] (Returned None))) by runs.
  assert (H3 : EvEnqDone 0 ∉ sched_ok) by absent.
  do 3 (split; [assumption|]).
  destruct (Execute_waits_for_batch job_Execute 4 1 false sched_ok _ 0 _ None
              H1 H2 eq_refl H3) as (H4 & H5 & _).
  split; [exact H4|exact H5].
Defined.

Lemma queue_bounded_witness :
  run job_Execute pool1 sched_two = Some (after sched_two) ∧
  length (in_buf (after sched_two)) = 1 ∧
  length (in_buf (after sched_two)) ≤ Z.to_nat (effective 4 1) ∧
  step job_Execute (after sched_two) (EvEnqSend 0 pa_ok) = None.
Proof.
  assert (H1 : run job_Execute pool1 sched_two = Some (after sched_two)) by runs.
  assert (H2 : length (in_buf (after sched_two)) = 1) by runs.
  do 2 (split; [assumption|]).
  destruct (queue_bounded job_Execute 4 1 false sched_two _ H1) as (H3 & _ & H4).
  split; [exact H3|]. exact (H4 H2 0 pa_ok).
Defined.

Lemma workers_can_exit_witness :
  run job_Execute pool1 sched_two = Some (after sched_two) ∧
  done (after sched_two) = true ∧
  ∃ evs' s', run job_Execute (after sched_two) evs' = Some s' ∧
    ∀ w x, workers s' !! w = Some x → x = Exited.
Proof.
  assert (H1 : run job_Execute pool1 sched_two = Some (after sched_two)) by runs.
  assert (H2 : done (after sched_two) = true) by runs.
  do 2 (split; [assumption|]).
  destruct (workers_can_exit job_Execute 4 1 false sched_two _ H1 H2)
    as (_ & evs' & s' & _ & H3 & H4).
  exists evs', s'. split; [exact H3|exact H4].
Defined.

Lemma Execute_error_is_genuine_witness :
  run job_Execute pool1 sched_fail = Some (after sched_fail) ∧
  calls (after sched_fail) !! 0 = Some (Call 0 [JobFail] (Returned (Some boom))) ∧
  (∀ e, EvCancelCtx 0 e ∉ sched_fail) ∧ (EvEnqDone 0 ∉ sched_fail) ∧
  ∃ a, a ∈ [JobFail] ∧ job_Execute a None = Some boom ∧
       (a, Some boom) ∈ outcomes 0 sched_fail.
Proof.
  assert (H1 : run job_Execute pool1 sched_fail = Some (after sched_fail)) by runs.
  assert (H2 : calls (after sched_fail) !! 0
               = Some (Call 0 [JobFail] (Returned (Some boom)))) by runs.
  assert (H3 : ∀ e, EvCancelCtx 0 e ∉ sched_fail) by (intros e; absent).
  assert (H4 : EvEnqDone 0 ∉ sched_fail) by absent.
  do 4 (split; [assumption|]).
  exact (Execute_error_is_genuine job_Execute 4 1 false sched_fail _ 0 _ boom
           H1 H2 eq_refl H3 H4).
Defined.
